(** * Contamination checker: [contamination/check_contamination.py]

    A shallow embedding of the matching engine of the contamination checker
    (tokenizer, Jaccard scorer, entry matcher, reference loader, candidate
    stream and worker pool), followed by the properties established for it.

    Conventions of the embedding.
    - A Python [str] is a [string]; a character is read as the code point
      U+0000..U+00FF it denotes (text outside Latin-1 is outside the model).
    - A Python [set] of strings is a [gset string]; a [dict] decoded from
      JSON is a [gmap string json].
    - A Python [float] produced by [intersection / union] is kept as the exact
      quotient, a canonical rational [Qc]; binary64 rounding is monotone and
      fixes 0 and 1, so order facts against 0 and 1 carry over.
    - [print] appends to a log, an uncaught exception ends the computation:
      both are carried by the small monad [M]. *)

From Stdlib Require Import Ascii String QArith Qcanon Permutation.
From stdpp Require Import gmap strings list fin_maps fin_sets.

Set Default Proof Using "Type".
#[local] Set Warnings "-register-all,-clear-no-such-hyp".

(** ** Characters and the string methods the program calls *)

Module Text.

Definition ord (c : ascii) : N := N_of_ascii c.

Definition between (lo hi n : N) : bool := ((lo <=? n) && (n <=? hi))%N.

(** [str.isspace] on one character; the same class is [\s] of [re] and the
    separator class of [str.split()] and [str.strip()]. *)
Definition isspace (c : ascii) : bool :=
  let n := ord c in
  (between 9 13 n || between 28 32 n || (n =? 133) || (n =? 160))%N.

Definition isalpha (c : ascii) : bool :=
  let n := ord c in
  (between 65 90 n || between 97 122 n || (n =? 170) || (n =? 181)
   || (n =? 186) || between 192 214 n || between 216 246 n
   || between 248 255 n)%N.

Definition isnumeric (c : ascii) : bool :=
  let n := ord c in
  (between 48 57 n || (n =? 178) || (n =? 179) || (n =? 185)
   || between 188 190 n)%N.

(** [\w] of [re] on [str] patterns: alphanumeric or underscore. *)
Definition isword (c : ascii) : bool :=
  isalpha c || isnumeric c || (ord c =? 95)%N.

Definition lower_char (c : ascii) : ascii :=
  let n := ord c in
  if (between 65 90 n || between 192 214 n || between 216 222 n)%N
  then ascii_of_N (n + 32) else c.

Definition chars (s : string) : list ascii := list_ascii_of_string s.
Definition text (l : list ascii) : string := string_of_list_ascii l.

(** [str.lower()] *)
Definition lower (s : string) : string := text (map lower_char (chars s)).

Fixpoint lstrip_chars (l : list ascii) : list ascii :=
  match l with
  | c :: l' => if isspace c then lstrip_chars l' else l
  | [] => []
  end.

Definition rstrip_chars (l : list ascii) : list ascii :=
  rev (lstrip_chars (rev l)).

(** [str.strip()] *)
Definition strip (s : string) : string :=
  text (rstrip_chars (lstrip_chars (chars s))).

(** [re.sub(r"[^\w\s]", "", s)]: every character outside both classes is
    replaced by nothing. *)
Definition re_sub_nonword (s : string) : string :=
  text (filter (λ c, isword c || isspace c) (chars s)).

(** [str.split()] without arguments: one left-to-right scan; [cur] holds the
    word being read, reversed.  A separator closes the current word, and
    empty words are never produced. *)
Fixpoint split_scan (cur : list ascii) (l : list ascii) : list (list ascii) :=
  match l with
  | [] => match cur with [] => [] | _ => [rev cur] end
  | c :: l' =>
      if isspace c
      then match cur with
           | [] => split_scan [] l'
           | _ => rev cur :: split_scan [] l'
           end
      else split_scan (c :: cur) l'
  end.

Definition split (s : string) : list string :=
  map text (split_scan [] (chars s)).

End Text.

(** ** Tokenizer and similarity scorer *)

(** [tokenize], lines 28-31. *)
Definition tokenize (text : string) : gset string :=
  let text := Text.re_sub_nonword (Text.lower text) in
  list_to_set (Text.split text).

(** [intersection / union] on two [int]s, as the exact quotient.  The
    program divides only after testing that [union] is not 0. *)
Definition true_div (a b : nat) : Qc :=
  Q2Qc (Z.of_nat a # Pos.of_nat b).

(** [jaccard_similarity], lines 20-25.  An empty [set] is falsy, and so is
    the integer 0. *)
Definition jaccard_similarity (set1 set2 : gset string) : Qc :=
  if bool_decide (set1 = ∅) && bool_decide (set2 = ∅) then 1%Qc
  else
    let intersection := size (set1 ∩ set2) in
    let union := size (set1 ∪ set2) in
    if bool_decide (union ≠ 0) then true_div intersection union else 0%Qc.

(** ** JSON values, exceptions and output *)

(** What [json.loads] returns: [None], [bool], [int], [float], [str], [list]
    or [dict]. *)
Inductive json :=
  | JNull
  | JBool (b : bool)
  | JInt (n : Z)
  | JFloat (q : Q)
  | JStr (s : string)
  | JArr (l : list json)
  | JObj (m : gmap string json).

(** The exceptions the program can raise and does not catch. *)
Inductive exn := AttributeError | KeyError | TypeError | OSError.

Inductive outcome (A : Type) :=
  | Return (a : A)
  | Raise (e : exn).
Arguments Return {A} a.
Arguments Raise {A} e.

(** A computation prints lines and then returns or raises. *)
Definition M (A : Type) : Type := list string * outcome A.

Definition printed {A} (m : M A) : list string := m.1.
Definition result {A} (m : M A) : outcome A := m.2.

#[global] Instance M_ret : MRet M := λ A a, ([], Return a).
#[global] Instance M_bind : MBind M := λ A B f m,
  match m.2 with
  | Return a => (m.1 ++ (f a).1, (f a).2)
  | Raise e => (m.1, Raise e)
  end.

Definition raise {A} (e : exn) : M A := ([], Raise e).
Definition print (s : string) : M () := ([s], Return ()).

(** [for x in l: body], threading the variables the body assigns. *)
Fixpoint for_each {A S} (body : S → A → M S) (l : list A) (s : S) : M S :=
  match l with
  | [] => mret s
  | x :: l' => s' ← body s x; for_each body l' s'
  end.

(** [o.get(key, default)]: only a [dict] has the method. *)
Definition dict_get (o : json) (key : string) (default : json) : M json :=
  match o with
  | JObj m => mret (match m !! key with Some v => v | None => default end)
  | _ => raise AttributeError
  end.

(** [v.strip()]: only a [str] has the method. *)
Definition str_strip (v : json) : M string :=
  match v with
  | JStr s => mret (Text.strip s)
  | _ => raise AttributeError
  end.

(** [o[key]] with a [str] key. *)
Definition subscript (o : json) (key : string) : M json :=
  match o with
  | JObj m => match m !! key with Some v => mret v | None => raise KeyError end
  | _ => raise TypeError
  end.

Definition is_str (key : string) (v : json) : bool :=
  match v with JStr s => bool_decide (s = key) | _ => false end.

(** [key in o] with a [str] key: key lookup on a [dict], element search on
    a [list], substring search on a [str]; the other values are not
    iterable. *)
Definition contains (key : string) (o : json) : M bool :=
  match o with
  | JObj m => mret (bool_decide (is_Some (m !! key)))
  | JArr l => mret (existsb (is_str key) l)
  | JStr s => mret (bool_decide (is_Some (String.index 0 key s)))
  | _ => raise TypeError
  end.

(** ** Entry matcher *)

Inductive match_kind := exact_match | jaccard_question | jaccard_answer.

(** [(ref_entry, input_entry, kind, score)] *)
Definition match_record : Type := json * json * match_kind * Qc.

Definition rec_ref (r : match_record) : json := r.1.1.1.
Definition rec_input (r : match_record) : json := r.1.1.2.
Definition rec_kind (r : match_record) : match_kind := r.1.2.
Definition rec_score (r : match_record) : Qc := r.2.

(** [x >= y] on scores. *)
Definition fge (x y : Qc) : bool := Qle_bool y x.

Section Program.

(** [json.loads] belongs to the Python library: it is a parameter of the
    program, [None] standing for [json.JSONDecodeError]. *)
Variable json_loads : string → option json.

(** The body of the loop of [check_entry], lines 51-70. *)
Definition check_ref (input_entry : json) (input_q input_a : string)
    (input_q_tokens input_a_tokens : gset string)
    (q_key a_key : string) (threshold : Qc)
    (contaminated : list match_record) (ref_entry : json)
    : M (list match_record) :=
  ref_q ← subscript ref_entry q_key ≫= str_strip;
  ref_a ← subscript ref_entry a_key ≫= str_strip;
  let ref_q_tokens := tokenize ref_q in
  let ref_a_tokens := tokenize ref_a in
  if bool_decide (input_q = ref_q) || bool_decide (input_a = ref_a) then
    mret (contaminated ++ [(ref_entry, input_entry, exact_match, 1%Qc)])
  else
    let q_sim := jaccard_similarity ref_q_tokens input_q_tokens in
    if fge q_sim threshold then
      mret (contaminated ++ [(ref_entry, input_entry, jaccard_question, q_sim)])
    else
      let a_sim := jaccard_similarity ref_a_tokens input_a_tokens in
      if fge a_sim threshold then
        mret (contaminated ++ [(ref_entry, input_entry, jaccard_answer, a_sim)])
      else mret contaminated.

(** [check_entry], lines 34-73.  Only [json.JSONDecodeError] is caught. *)
Definition check_entry (reference_data : list json)
    (line_file : string * string) (q_key a_key : string) (threshold : Qc)
    : M (list match_record) :=
  let contaminated := [] in
  let '(line, input_file) := line_file in
  match json_loads (Text.strip line) with
  | Some input_entry =>
      input_q ← dict_get input_entry "question" (JStr "") ≫= str_strip;
      input_a ← dict_get input_entry "answer" (JStr "") ≫= str_strip;
      let input_q_tokens := tokenize input_q in
      let input_a_tokens := tokenize input_a in
      for_each
        (check_ref input_entry input_q input_a input_q_tokens input_a_tokens
           q_key a_key threshold)
        reference_data contaminated
  | None =>
      print ("Invalid JSON in " +:+ input_file +:+ ": " +:+ line);;
      mret contaminated
  end.

End Program.

(** ** Candidate stream, reference loader, worker pool *)

(** [get_all_lines], lines 76-81.  [fs] gives the lines of each readable
    file; opening any other path raises. *)
Definition get_all_lines (fs : gmap string (list string))
    (input_files : list string) : M (list (string * string)) :=
  for_each
    (λ yielded input_file,
       match fs !! input_file with
       | Some f =>
           mret (yielded ++
                 map (λ line, (line, input_file))
                   (filter (λ line, Text.strip line ≠ ""%string) f))
       | None => raise OSError
       end)
    input_files [].

Section Loader.

Variable json_loads : string → option json.
(** [str(entry)], used by one diagnostic only. *)
Variable py_str : json → string.

(** [q_key in entry and a_key in entry]: the right operand is evaluated
    only when the left one is true. *)
Definition has_keys (q_key a_key : string) (entry : json) : M bool :=
  contains q_key entry ≫= λ has_q : bool,
  if has_q then contains a_key entry else mret false.

(** Loading the reference from a JSONL file: the body of the loop of
    [main], lines 162-168. *)
Definition load_jsonl_line (q_key a_key : string)
    (reference_data : list json) (line : string) : M (list json) :=
  match json_loads (Text.strip line) with
  | Some entry =>
      has_keys q_key a_key entry ≫= λ has_both : bool,
      if has_both then mret (reference_data ++ [entry])
      else mret reference_data
  | None =>
      print ("Invalid JSON in reference JSONL: " +:+ line);;
      mret reference_data
  end.

Definition load_reference_jsonl (q_key a_key : string) (f : list string)
    : M (list json) :=
  for_each (load_jsonl_line q_key a_key) f [].

(** Loading the reference from a dataset of the hub: the body of the loop
    of [main], lines 178-182. *)
Definition load_hf_entry (q_key a_key : string)
    (reference_data : list json) (entry : json) : M (list json) :=
  has_keys q_key a_key entry ≫= λ has_both : bool,
  if has_both then
    vq ← subscript entry q_key;
    va ← subscript entry a_key;
    mret (reference_data ++ [JObj (<[a_key := va]> {[q_key := vq]})])
  else
    print ("Entry missing keys " +:+ q_key +:+ " or " +:+ a_key +:+ ": "
           +:+ py_str entry);;
    mret reference_data.

Definition load_reference_hf (q_key a_key : string) (dataset : list json)
    : M (list json) :=
  for_each (load_hf_entry q_key a_key) dataset [].

End Loader.

(** [multiprocessing.Pool(processes).imap_unordered(worker_func, tasks)]:
    tasks leave the queue in order while a worker is free, a running task
    may finish at any moment, and its result is delivered on completion. *)
Section Pool.

Context {T R : Type}.
Variable worker_func : T → R.
Variable processes : nat.

Record pool_state := PoolState {
  pending : list T;
  running : list T;
  arrived : list R
}.

Inductive pool_step : pool_state → pool_state → Prop :=
  | step_dispatch t q run arr :
      length run < processes →
      pool_step (PoolState (t :: q) run arr) (PoolState q (run ++ [t]) arr)
  | step_complete q run1 t run2 arr :
      pool_step (PoolState q (run1 ++ t :: run2) arr)
                (PoolState q (run1 ++ run2) (arr ++ [worker_func t])).

Definition pool_init (tasks : list T) : pool_state := PoolState tasks [] [].

Definition pool_done (st : pool_state) : Prop :=
  pending st = [] ∧ running st = [].

(** [results_iter] may deliver [rs], in this order. *)
Definition imap_unordered (tasks : list T) (rs : list R) : Prop :=
  ∃ st, rtc pool_step (pool_init tasks) st ∧ pool_done st ∧ arrived st = rs.

(** What the pool preserves: the results delivered, those of the running
    tasks and those of the queued tasks make up the results of all tasks. *)
Definition pool_inv (tasks : list T) (st : pool_state) : Prop :=
  arrived st ++ (worker_func <$> running st) ++ (worker_func <$> pending st)
  ≡ₚ worker_func <$> tasks.

End Pool.

(** The loop of [main], lines 208-212: a delivered result is the list the
    worker returned, or the exception it raised, raised again here. *)
Definition extend (all_contaminated : list match_record)
    (res : M (list match_record)) : M (list match_record) :=
  r ← res; mret (all_contaminated ++ r).

Definition collect (results_iter : list (M (list match_record)))
    : M (list match_record) :=
  for_each extend results_iter [].

(** A run of lines 196-212 with a pool of [processes] workers. *)
Definition pool_run (json_loads : string → option json)
    (processes : nat) (reference_data : list json) (q_key a_key : string)
    (threshold : Qc) (tasks : list (string * string))
    (all_contaminated : M (list match_record)) : Prop :=
  ∃ rs,
    imap_unordered
      (λ line_file, check_entry json_loads reference_data line_file
                      q_key a_key threshold)
      processes tasks rs
    ∧ all_contaminated = collect rs.

(** ** The data model and the rules, in the words of the specification *)

(** The string stored under [key] in a record. *)
Definition str_field (o : json) (key : string) : option string :=
  match o with
  | JObj m => match m !! key with Some (JStr s) => Some s | _ => None end
  | _ => None
  end.

(** A Reference Entry: a record with string fields under both keys. *)
Definition reference_entry (q_key a_key : string) (r : json) : Prop :=
  is_Some (str_field r q_key) ∧ is_Some (str_field r a_key).

(** A field of a Candidate Entry: a string, the empty one when the key is
    missing. *)
Definition candidate_field (m : gmap string json) (key : string)
    : option string :=
  match m !! key with
  | None => Some ""%string
  | Some (JStr s) => Some s
  | Some _ => None
  end.

(** The precedence among the three rules, on trimmed strings: the first rule
    that fires gives the kind and the score. *)
Definition first_rule (threshold : Qc) (cand_q cand_a ref_q ref_a : string)
    : option (match_kind * Qc) :=
  if bool_decide (cand_q = ref_q ∨ cand_a = ref_a) then
    Some (exact_match, 1%Qc)
  else if bool_decide
            (threshold ≤ jaccard_similarity (tokenize cand_q) (tokenize ref_q))%Qc
  then Some (jaccard_question,
             jaccard_similarity (tokenize cand_q) (tokenize ref_q))
  else if bool_decide
            (threshold ≤ jaccard_similarity (tokenize cand_a) (tokenize ref_a))%Qc
  then Some (jaccard_answer,
             jaccard_similarity (tokenize cand_a) (tokenize ref_a))
  else None.

(** The record, if any, of one candidate against one reference entry. *)
Definition pair_record (q_key a_key : string) (threshold : Qc)
    (cand : json) (cand_q cand_a : string) (ref : json)
    : option match_record :=
  match str_field ref q_key, str_field ref a_key with
  | Some ref_q, Some ref_a =>
      match first_rule threshold (Text.strip cand_q) (Text.strip cand_a)
              (Text.strip ref_q) (Text.strip ref_a) with
      | Some (kind, score) => Some (ref, cand, kind, score)
      | None => None
      end
  | _, _ => None
  end.

(** One pass over the reference collection, in its order. *)
Definition spec_matches (q_key a_key : string) (threshold : Qc)
    (cand : json) (cand_q cand_a : string) (reference_data : list json)
    : list match_record :=
  omap (pair_record q_key a_key threshold cand cand_q cand_a) reference_data.

(** A token of [s]: a non-empty run of [s] without whitespace that cannot
    be extended on either side. *)
Definition token_of (s t : list ascii) : Prop :=
  t ≠ [] ∧ Forall (λ c, Text.isspace c = false) t ∧
  ∃ pre post, s = pre ++ t ++ post
    ∧ (pre = [] ∨ ∃ p c, pre = p ++ [c] ∧ Text.isspace c = true)
    ∧ (post = [] ∨ ∃ c p, post = c :: p ∧ Text.isspace c = true).

(** Letter, digit, underscore or whitespace. *)
Definition kept (c : ascii) : bool :=
  Text.isalpha c || Text.isnumeric c || bool_decide (c = "_"%char)
  || Text.isspace c.

(** The text the tokens are cut from: lower-cased, other characters
    removed. *)
Definition normalized (s : string) : list ascii :=
  filter (λ c, kept c = true) (map Text.lower_char (Text.chars s)).

(** The bound on the score of a record, by kind. *)
Definition score_ok (threshold : Qc) (r : match_record) : Prop :=
  (rec_kind r = exact_match → rec_score r = 1%Qc)
  ∧ (rec_kind r ≠ exact_match →
     (threshold ≤ rec_score r)%Qc ∧ (rec_score r ≤ 1)%Qc).


(** ** The loop of [check_entry] without the monad

    [ref_strings], [verdict] and [scan] restate the loop body as pure
    functions; [check_ref_view] and [for_each_scan] below prove that the
    program computes them. *)

(** The two trimmed fields of a reference entry, or the exception raised
    while reading them. *)
Definition ref_strings (q_key a_key : string) (ref_entry : json)
    : outcome (string * string) :=
  match ref_entry with
  | JObj m =>
      match m !! q_key with
      | Some (JStr q) =>
          match m !! a_key with
          | Some (JStr a) => Return (Text.strip q, Text.strip a)
          | Some _ => Raise AttributeError
          | None => Raise KeyError
          end
      | Some _ => Raise AttributeError
      | None => Raise KeyError
      end
  | _ => Raise TypeError
  end.

(** The branch taken by the loop body, lines 57-70. *)
Definition verdict (threshold : Qc) (input_q input_a ref_q ref_a : string)
    : option (match_kind * Qc) :=
  if bool_decide (input_q = ref_q) || bool_decide (input_a = ref_a) then
    Some (exact_match, 1%Qc)
  else
    let q_sim := jaccard_similarity (tokenize ref_q) (tokenize input_q) in
    if fge q_sim threshold then Some (jaccard_question, q_sim)
    else
      let a_sim := jaccard_similarity (tokenize ref_a) (tokenize input_a) in
      if fge a_sim threshold then Some (jaccard_answer, a_sim) else None.

Definition verdict_records (threshold : Qc) (input_entry : json)
    (input_q input_a : string) (ref_entry : json) (ref_q ref_a : string)
    : list match_record :=
  match verdict threshold input_q input_a ref_q ref_a with
  | Some (kind, score) => [(ref_entry, input_entry, kind, score)]
  | None => []
  end.

Fixpoint scan (q_key a_key : string) (threshold : Qc) (input_entry : json)
    (input_q input_a : string) (reference_data : list json)
    (contaminated : list match_record) : outcome (list match_record) :=
  match reference_data with
  | [] => Return contaminated
  | ref_entry :: rest =>
      match ref_strings q_key a_key ref_entry with
      | Return (ref_q, ref_a) =>
          scan q_key a_key threshold input_entry input_q input_a rest
            (contaminated ++
             verdict_records threshold input_entry input_q input_a
               ref_entry ref_q ref_a)
      | Raise e => Raise e
      end
  end.

(** The two trimmed fields of a decoded candidate, lines 45-46. *)
Definition cand_strings (input_entry : json) : outcome (string * string) :=
  match input_entry with
  | JObj m =>
      match default (JStr "") (m !! "question"%string),
            default (JStr "") (m !! "answer"%string) with
      | JStr q, JStr a => Return (Text.strip q, Text.strip a)
      | _, _ => Raise AttributeError
      end
  | _ => Raise AttributeError
  end.

(** What a record says apart from the candidate it embeds. *)
Definition triple (r : match_record) : json * match_kind * Qc :=
  (rec_ref r, rec_kind r, rec_score r).

Definition triples (m : M (list match_record))
    : M (list (json * match_kind * Qc)) :=
  (m.1,
   match m.2 with Return l => Return (triple <$> l) | Raise e => Raise e end).

(** The records a delivered result carries, none when it is an exception. *)
Definition returned (res : M (list match_record)) : list match_record :=
  match res.2 with Return l => l | Raise _ => [] end.

Definition raises (res : M (list match_record)) : Prop :=
  ∃ e, res.2 = Raise e.

(** ** The rest of [main] *)

(** [str.split(sep)] with a separator of one character: one left-to-right
    scan, [cur] holding the piece being read, reversed.  Empty pieces are
    kept. *)
Fixpoint split_sep_scan (sep : ascii) (cur l : list ascii)
    : list (list ascii) :=
  match l with
  | [] => [rev cur]
  | c :: l' =>
      if bool_decide (c = sep) then rev cur :: split_sep_scan sep [] l'
      else split_sep_scan sep (c :: cur) l'
  end.

Definition split_sep (sep : ascii) (s : string) : list string :=
  Text.text <$> split_sep_scan sep [] (Text.chars s).

(** The list of input files, line 187:
    [[f.strip() for f in args.input_jsonls.split(",") if f.strip()]]. *)
Definition input_files (input_jsonls : string) : list string :=
  Text.strip <$>
    filter (λ f, Text.strip f ≠ ""%string) (split_sep "," input_jsonls).

(** [total_lines], lines 191-193: every line of every input file is
    counted. *)
Definition total_lines (fs : gmap string (list string))
    (input_files : list string) : M nat :=
  for_each
    (λ total f,
       match fs !! f with
       | Some lines => mret (total + length lines)
       | None => raise OSError
       end)
    input_files 0.

(** ** Notions used in the statements below *)

(** A text without whitespace at either end. *)
Definition trimmed (m : list ascii) : Prop :=
  m = [] ∨ ((∃ c m', m = c :: m' ∧ Text.isspace c = false)
            ∧ (∃ m' c, m = m' ++ [c] ∧ Text.isspace c = false)).

(** A decoded value that is neither a record, nor a list, nor a string. *)
Definition is_scalar (v : json) : bool :=
  match v with
  | JNull | JBool _ | JInt _ | JFloat _ => true
  | JStr _ | JArr _ | JObj _ => false
  end.

(** A line of a reference file that is not JSON or decodes to a record. *)
Definition record_line (json_loads : string → option json) (line : string)
    : Prop :=
  match json_loads (Text.strip line) with
  | Some (JObj _) | None => True
  | Some _ => False
  end.

(** The names of a list joined by commas. *)
Fixpoint join_comma (names : list string) : string :=
  match names with
  | [] => ""
  | [name] => name
  | name :: rest => name +:+ "," +:+ join_comma rest
  end.

(** ** Sample inputs *)

Module Sample.

Definition dq : string := String (ascii_of_N 34) "".
Definition quoted (s : string) : string := dq +:+ s +:+ dq.

(** The line [{"question":q,"answer":a}] and the record it denotes. *)
Definition line_qa (q a : string) : string :=
  "{" +:+ quoted "question" +:+ ":" +:+ quoted q +:+ ","
  +:+ quoted "answer" +:+ ":" +:+ quoted a +:+ "}".
Definition obj_qa (q a : string) : json :=
  JObj (<["answer"%string := JStr a]> {["question"%string := JStr q]}).

(** [{"question":q,"answer":a,"source":"web"}] *)
Definition line_qa_src (q a : string) : string :=
  "{" +:+ quoted "question" +:+ ":" +:+ quoted q +:+ ","
  +:+ quoted "answer" +:+ ":" +:+ quoted a +:+ ","
  +:+ quoted "source" +:+ ":" +:+ quoted "web" +:+ "}".
Definition obj_qa_src (q a : string) : json :=
  JObj (<["source"%string := JStr "web"]>
          (<["answer"%string := JStr a]> {["question"%string := JStr q]})).

(** [{"question":q}] *)
Definition line_q (q : string) : string :=
  "{" +:+ quoted "question" +:+ ":" +:+ quoted q +:+ "}".
Definition obj_q (q : string) : json := JObj {["question"%string := JStr q]}.

(** [{"question":5}] and [{"id":7}] *)
Definition line_q5 : string := "{" +:+ quoted "question" +:+ ":5}".
Definition obj_q5 : json := JObj {["question"%string := JInt 5]}.
Definition line_id : string := "{" +:+ quoted "id" +:+ ":7}".
Definition obj_id : json := JObj {["id"%string := JInt 7]}.

(** [["question","answer"]] *)
Definition line_list : string :=
  "[" +:+ quoted "question" +:+ "," +:+ quoted "answer" +:+ "]".
Definition obj_list : json := JArr [JStr "question"; JStr "answer"].

(** The JSON texts of the examples with the values [json.loads] gives. *)
Definition table : list (string * json) :=
  [ (line_qa "What is 2+2?" "five", obj_qa "What is 2+2?" "five");
    (line_qa "totally unrelated" "42", obj_qa "totally unrelated" "42");
    (line_qa "What is 2+2?" "4", obj_qa "What is 2+2?" "4");
    (line_qa "a b c d" "x", obj_qa "a b c d" "x");
    (line_qa "a b c e" "y", obj_qa "a b c e" "y");
    (line_qa "Name a prime" "", obj_qa "Name a prime" "");
    (line_qa_src "What is 2+2?" "five", obj_qa_src "What is 2+2?" "five");
    (line_q "Only a question", obj_q "Only a question");
    (line_q5, obj_q5);
    (line_id, obj_id);
    (line_list, obj_list);
    ("[]"%string, JArr []);
    ("7"%string, JInt 7) ].

(** [json.loads] on the texts of [table] and on [not json], which is not
    JSON; it is applied to no other text. *)
Definition loads (s : string) : option json :=
  snd <$> List.find (λ p, bool_decide (p.1 = s)) table.

Definition py_str (v : json) : string := "<entry>".

(** A line as read from a file, with its end of line. *)
Definition nl (s : string) : string := s +:+ String (ascii_of_N 10) "".

(** A reference collection, a threshold of 0.8 and the worker of a run over
    the file [in.jsonl]. *)
Definition refs : list json :=
  [obj_qa "What is 2+2?" "4"; obj_qa "Name a prime" ""].
Definition threshold : Qc := Q2Qc (4 # 5).
Definition worker (line : string) : M (list match_record) :=
  check_entry loads refs (line, "in.jsonl"%string) "question" "answer"
    threshold.

(** The non-blank lines of [in.jsonl]. *)
Definition tasks : list (string * string) :=
  [ (nl (line_qa "What is 2+2?" "five"), "in.jsonl"%string);
    (nl "not json", "in.jsonl"%string);
    (nl (line_qa "totally unrelated" "42"), "in.jsonl"%string) ].

End Sample.

(** ** More sample inputs *)

Module Inputs.

(** [Sample.table] with two questions made of punctuation only. *)
Definition table : list (string * json) :=
  Sample.table ++
  [ (Sample.line_qa "?!" "yes", Sample.obj_qa "?!" "yes");
    (Sample.line_qa "..." "no", Sample.obj_qa "..." "no") ].

Definition loads (s : string) : option json :=
  snd <$> List.find (λ p, bool_decide (p.1 = s)) table.

(** Two input files; the second line of [a.jsonl] is blank. *)
Definition fs : gmap string (list string) :=
  <["b.jsonl"%string :=
      [Sample.nl (Sample.line_qa "totally unrelated" "42")]]>
    {["a.jsonl"%string :=
        [Sample.nl (Sample.line_qa "What is 2+2?" "five");
         Sample.nl "  ";
         Sample.nl "not json"]]}.

(** A reference file: a complete record, a record without answer, and a
    line that is not JSON. *)
Definition reference_file : list string :=
  [Sample.nl (Sample.line_qa "What is 2+2?" "4");
   Sample.nl (Sample.line_q "Only a question");
   Sample.nl "not json"].

End Inputs.

(** ** Similarity scorer *)

Lemma both_empty_iff (A B : gset string) :
  bool_decide (A = ∅) && bool_decide (B = ∅) = true ↔ A = ∅ ∧ B = ∅.
Proof. rewrite andb_true_iff, !bool_decide_eq_true. done. Qed.

Lemma union_size_pos (A B : gset string) :
  ¬ (A = ∅ ∧ B = ∅) → size (A ∪ B) ≠ 0.
Proof.
  intros Hne Hsz. apply size_empty_inv in Hsz. apply Hne.
  split; apply leibniz_equiv; set_solver.
Qed.

Lemma true_div_quotient (a b : nat) :
  b ≠ 0 →
  true_div a b = (Q2Qc (inject_Z (Z.of_nat a)) / Q2Qc (inject_Z (Z.of_nat b)))%Qc.
Proof.
  intros Hb. apply Qc_is_canon. unfold true_div, Qcdiv, Qcmult, Qcinv.
  cbn [this Q2Qc]. rewrite !Qred_correct.
  destruct b as [|b]; [done|].
  rewrite <- Pos.of_nat_succ.
  change (Z.of_nat (S b)) with (Z.pos (Pos.of_succ_nat b)).
  unfold Qeq, Qmult, Qinv, inject_Z. cbn [Qnum Qden]. lia.
Qed.

Lemma true_div_range (a b : nat) : a ≤ b → (0 ≤ true_div a b ≤ 1)%Qc.
Proof.
  intros Hab. unfold Qcle, true_div. cbn [this Q2Qc].
  rewrite !Qred_correct. unfold Qle. cbn [Qnum Qden].
  destruct b as [|b].
  - assert (a = 0) as -> by lia. cbn. lia.
  - rewrite <- Pos.of_nat_succ. lia.
Qed.

Lemma jaccard_similarity_range (A B : gset string) :
  (0 ≤ jaccard_similarity A B ≤ 1)%Qc.
Proof.
  unfold jaccard_similarity. cbv zeta.
  destruct (bool_decide (A = ∅) && bool_decide (B = ∅)); [done|].
  destruct (bool_decide (size (A ∪ B) ≠ 0)); [|done].
  apply true_div_range, subseteq_size.
  intros x [Hx _]%elem_of_intersection. apply elem_of_union. by left.
Qed.

Lemma jaccard_similarity_comm (A B : gset string) :
  jaccard_similarity A B = jaccard_similarity B A.
Proof.
  pose proof (intersection_comm_L A B) as Hi.
  pose proof (union_comm_L A B) as Hu.
  unfold jaccard_similarity. by rewrite Hi, Hu, andb_comm.
Qed.

(** C3. The scorer gives 1.0 on two empty sets; on any other pair the union
    is not empty, so the branch returning 0.0 is never taken and the result
    is the quotient of the two sizes; every result lies between 0 and 1. *)
Theorem jaccard_similarity_spec :
  jaccard_similarity ∅ ∅ = 1%Qc
  ∧ (∀ A B : gset string, ¬ (A = ∅ ∧ B = ∅) →
       jaccard_similarity A B
       = (if bool_decide (size (A ∪ B) ≠ 0)
          then (Q2Qc (inject_Z (Z.of_nat (size (A ∩ B))))
                / Q2Qc (inject_Z (Z.of_nat (size (A ∪ B)))))%Qc
          else 0%Qc)
       ∧ size (A ∪ B) ≠ 0)
  ∧ (∀ A B : gset string, (0 ≤ jaccard_similarity A B ≤ 1)%Qc)
  ∧ jaccard_similarity ∅ {["x"%string]} = 0%Qc.
Proof.
  split_and!.
  - done.
  - intros A B Hne. split; [|by apply union_size_pos].
    unfold jaccard_similarity. cbv zeta.
    destruct (bool_decide (A = ∅) && bool_decide (B = ∅)) eqn:E.
    { by apply both_empty_iff in E. }
    destruct (bool_decide (size (A ∪ B) ≠ 0)) eqn:E'; [|done].
    apply bool_decide_eq_true in E'. by apply true_div_quotient.
  - apply jaccard_similarity_range.
  - by apply Qc_is_canon.
Qed.

(** C7. The scorer is symmetric. *)
Theorem jaccard_similarity_symmetric (A B : gset string) :
  jaccard_similarity A B = jaccard_similarity B A.
Proof. apply jaccard_similarity_comm. Qed.

(** ** Tokenizer *)

Section Split.
Import Text.

Local Abbreviation nonspace := (λ c, isspace c = false).


Lemma split_scan_boundary (p : list ascii) (c : ascii) (l cur : list ascii) :
  isspace c = true →
  split_scan cur (p ++ c :: l) = split_scan cur (p ++ [c]) ++ split_scan [] l.
Proof.
  intros Hc. revert cur. induction p as [|a p IH]; intros cur; cbn [app split_scan].
  - rewrite Hc. by destruct cur.
  - destruct (isspace a); [|apply IH].
    destruct cur; [apply IH|]. cbn [app]. f_equal. apply IH.
Qed.

Lemma token_of_after (x : list ascii) (c : ascii) (l t : list ascii) :
  isspace c = true → token_of l t → token_of (x ++ c :: l) t.
Proof.
  intros Hc (Hne & Hns & pre & post & -> & Hpre & Hpost).
  split_and!; [done..|].
  exists (x ++ c :: pre), post. split_and!; [|right|done].
  - by rewrite <- !app_assoc.
  - destruct Hpre as [->|(p & c' & -> & Hc')].
    + by exists x, c.
    + exists (x ++ c :: p), c'. split; [|done]. by rewrite <- app_assoc.
Qed.

Lemma split_scan_sound (l : list ascii) :
  ∀ cur t, Forall nonspace cur → t ∈ split_scan cur l →
           token_of (rev cur ++ l) t.
Proof.
  induction l as [|c l IH]; intros cur t Hcur Hin; cbn [split_scan] in Hin.
  - destruct cur as [|a cur]; [by apply elem_of_nil in Hin|].
    apply list_elem_of_singleton in Hin as ->. rewrite app_nil_r.
    split_and!.
    + cbn [rev]. by destruct (rev cur).
    + by apply Forall_rev.
    + exists [], []. rewrite app_nil_r. auto.
  - destruct (isspace c) eqn:Hc.
    + destruct cur as [|a cur].
      * apply (token_of_after [] c); [done|]. by apply (IH []).
      * apply elem_of_cons in Hin as [->|Hin].
        -- split_and!.
           ++ cbn [rev]. by destruct (rev cur).
           ++ by apply Forall_rev.
           ++ exists [], (c :: l). split_and!; [done|by left|right; eauto].
        -- apply token_of_after; [done|]. by apply (IH []).
    + specialize (IH (c :: cur) t). cbn [rev] in IH.
      rewrite <- app_assoc in IH. apply IH; [|done]. by constructor.
Qed.


Lemma isword_kept (c : ascii) : isword c || isspace c = kept c.
Proof.
  unfold kept, isword. f_equal. f_equal.
  destruct c as [[] [] [] [] [] [] [] []]; reflexivity.
Qed.

Lemma chars_text (l : list ascii) : chars (text l) = l.
Proof. apply list_ascii_of_string_of_list_ascii. Qed.

Lemma text_chars (s : string) : text (chars s) = s.
Proof. apply string_of_list_ascii_of_string. Qed.

Lemma chars_normalized (s : string) :
  chars (re_sub_nonword (lower s)) = normalized s.
Proof.
  unfold re_sub_nonword, lower, normalized. rewrite !chars_text.
  apply list_filter_iff. intros c. rewrite <- isword_kept.
  by destruct (isword c || isspace c).
Qed.

End Split.


(** ** Entry matcher *)

Lemma M_ret_bind {A B} (a : A) (f : A → M B) : mret a ≫= f = f a.
Proof. unfold mret, mbind, M_ret, M_bind. cbn. by destruct (f a). Qed.

Lemma fge_decide (x y : Qc) : fge x y = bool_decide (y ≤ x)%Qc.
Proof.
  unfold fge. destruct (Qle_bool y x) eqn:E.
  - symmetry. apply bool_decide_eq_true. by apply Qle_bool_iff.
  - symmetry. apply bool_decide_eq_false. intros H.
    apply Qle_bool_iff in H. congruence.
Qed.

Section Matcher.

Variables (q_key a_key : string) (threshold : Qc).

Lemma ref_fields_view (ref_entry : json) {B}
    (k : string → string → M B) :
  (ref_q ← subscript ref_entry q_key ≫= str_strip;
   ref_a ← subscript ref_entry a_key ≫= str_strip;
   k ref_q ref_a)
  = match ref_strings q_key a_key ref_entry with
    | Return (ref_q, ref_a) => k ref_q ref_a
    | Raise e => raise e
    end.
Proof.
  unfold ref_strings, subscript, str_strip.
  destruct ref_entry as [| | | | |l|m]; try done.
  destruct (m !! q_key) as [[]|]; try done.
  rewrite !M_ret_bind.
  destruct (m !! a_key) as [[]|]; try done.
  by rewrite !M_ret_bind.
Qed.

Lemma check_ref_view (input_entry : json) (input_q input_a : string)
    (contaminated : list match_record) (ref_entry : json) :
  check_ref input_entry input_q input_a (tokenize input_q) (tokenize input_a)
    q_key a_key threshold contaminated ref_entry
  = match ref_strings q_key a_key ref_entry with
    | Return (ref_q, ref_a) =>
        mret (contaminated ++
              verdict_records threshold input_entry input_q input_a
                ref_entry ref_q ref_a)
    | Raise e => raise e
    end.
Proof.
  unfold check_ref. rewrite ref_fields_view.
  destruct (ref_strings q_key a_key ref_entry) as [[ref_q ref_a]|e]; [|done].
  unfold verdict_records, verdict. cbv zeta.
  repeat match goal with |- context [if ?b then _ else _] => destruct b end;
    by rewrite ?app_nil_r.
Qed.

Lemma for_each_scan (input_entry : json) (input_q input_a : string)
    (reference_data : list json) (contaminated : list match_record) :
  for_each
    (check_ref input_entry input_q input_a (tokenize input_q)
       (tokenize input_a) q_key a_key threshold)
    reference_data contaminated
  = ([], scan q_key a_key threshold input_entry input_q input_a
           reference_data contaminated).
Proof.
  revert contaminated.
  induction reference_data as [|ref_entry rest IH]; intros acc; [done|].
  cbn [for_each scan]. rewrite check_ref_view.
  destruct (ref_strings q_key a_key ref_entry) as [[ref_q ref_a]|e]; [|done].
  by rewrite M_ret_bind, IH.
Qed.

Lemma check_entry_view (json_loads : string → option json)
    (reference_data : list json) (line file : string) (input_entry : json) :
  json_loads (Text.strip line) = Some input_entry →
  check_entry json_loads reference_data (line, file) q_key a_key threshold
  = match cand_strings input_entry with
    | Return (input_q, input_a) =>
        ([], scan q_key a_key threshold input_entry input_q input_a
               reference_data [])
    | Raise e => raise e
    end.
Proof.
  intros Hload. unfold check_entry. rewrite Hload.
  unfold cand_strings, dict_get, str_strip.
  destruct input_entry as [| | | | |l|m]; try done.
  rewrite !M_ret_bind.
  destruct (m !! "question"%string) as [[]|]; cbn [default]; try done;
    rewrite !M_ret_bind;
    destruct (m !! "answer"%string) as [[]|]; cbn [default]; try done;
    rewrite !M_ret_bind; apply for_each_scan.
Qed.

Lemma check_entry_invalid (json_loads : string → option json)
    (reference_data : list json) (line file : string) :
  json_loads (Text.strip line) = None →
  check_entry json_loads reference_data (line, file) q_key a_key threshold
  = (["Invalid JSON in " +:+ file +:+ ": " +:+ line], Return []).
Proof. intros Hload. unfold check_entry. by rewrite Hload. Qed.

Lemma verdict_first_rule (input_q input_a ref_q ref_a : string) :
  verdict threshold input_q input_a ref_q ref_a
  = first_rule threshold input_q input_a ref_q ref_a.
Proof.
  unfold verdict, first_rule. cbv zeta.
  rewrite !fge_decide, !(jaccard_similarity_comm (tokenize ref_q)),
    !(jaccard_similarity_comm (tokenize ref_a)).
  assert (bool_decide (input_q = ref_q) || bool_decide (input_a = ref_a)
          = bool_decide (input_q = ref_q ∨ input_a = ref_a)) as ->; [|done].
  by rewrite bool_decide_or.
Qed.

Lemma ref_strings_typed (ref_entry : json) (ref_q ref_a : string) :
  str_field ref_entry q_key = Some ref_q →
  str_field ref_entry a_key = Some ref_a →
  ref_strings q_key a_key ref_entry
  = Return (Text.strip ref_q, Text.strip ref_a).
Proof.
  unfold str_field, ref_strings. destruct ref_entry as [| | | | |l|m]; try done.
  destruct (m !! q_key) as [[]|]; try done.
  destruct (m !! a_key) as [[]|]; try done. congruence.
Qed.

Lemma cand_strings_typed (m : gmap string json) (cq ca : string) :
  candidate_field m "question" = Some cq →
  candidate_field m "answer" = Some ca →
  cand_strings (JObj m) = Return (Text.strip cq, Text.strip ca).
Proof.
  unfold candidate_field, cand_strings.
  destruct (m !! "question"%string) as [[]|];
    destruct (m !! "answer"%string) as [[]|];
    cbn; intros; by simplify_eq.
Qed.

Lemma scan_typed (input_entry : json) (cq ca : string)
    (reference_data : list json) (contaminated : list match_record) :
  Forall (reference_entry q_key a_key) reference_data →
  scan q_key a_key threshold input_entry (Text.strip cq) (Text.strip ca)
    reference_data contaminated
  = Return (contaminated ++
            spec_matches q_key a_key threshold input_entry cq ca
              reference_data).
Proof.
  intros Hrefs. revert contaminated.
  induction Hrefs as [|ref_entry rest [[rq Hq] [ra Ha]] _ IH]; intros acc.
  { cbn. by rewrite app_nil_r. }
  cbn [scan]. rewrite (ref_strings_typed _ _ _ Hq Ha), IH.
  unfold spec_matches. cbn [omap list_omap]. unfold pair_record at 2.
  rewrite Hq, Ha.
  unfold verdict_records. rewrite verdict_first_rule, <- app_assoc.
  by destruct (first_rule _ _ _ _ _) as [[]|].
Qed.


End Matcher.

(** On a candidate record and reference entries with string fields the
    matcher computes [spec_matches] and prints nothing. *)
Lemma check_entry_typed (json_loads : string → option json)
    (reference_data : list json) (line file q_key a_key : string)
    (threshold : Qc) (m : gmap string json) (cand_q cand_a : string) :
  json_loads (Text.strip line) = Some (JObj m) →
  candidate_field m "question" = Some cand_q →
  candidate_field m "answer" = Some cand_a →
  Forall (reference_entry q_key a_key) reference_data →
  check_entry json_loads reference_data (line, file) q_key a_key threshold
  = ([], Return (spec_matches q_key a_key threshold (JObj m) cand_q cand_a
                   reference_data)).
Proof.
  intros Hload Hq Ha Hrefs.
  rewrite check_entry_view with (input_entry := JObj m) by done.
  rewrite (cand_strings_typed m cand_q cand_a) by done.
  by rewrite scan_typed.
Qed.





Lemma verdict_score (threshold : Qc) (input_q input_a ref_q ref_a : string)
    (kind : match_kind) (score : Qc) :
  verdict threshold input_q input_a ref_q ref_a = Some (kind, score) →
  (kind = exact_match ∧ score = 1%Qc)
  ∨ (kind ≠ exact_match ∧ (threshold ≤ score)%Qc ∧ (score ≤ 1)%Qc).
Proof.
  unfold verdict. cbv zeta. rewrite !fge_decide.
  destruct (_ || _); [intros [= <- <-]; by left|].
  destruct (bool_decide _) eqn:Eq.
  { intros [= <- <-]. right. apply bool_decide_eq_true in Eq.
    split_and!; [done..|]. apply jaccard_similarity_range. }
  clear Eq. destruct (bool_decide _) eqn:Ea; [|done].
  intros [= <- <-]. right. apply bool_decide_eq_true in Ea.
  split_and!; [done..|]. apply jaccard_similarity_range.
Qed.

Lemma scan_Forall (P : match_record → Prop) (q_key a_key : string)
    (threshold : Qc) (input_entry : json) (input_q input_a : string)
    (reference_data : list json) :
  (∀ ref_entry ref_q ref_a,
     Forall P (verdict_records threshold input_entry input_q input_a
                 ref_entry ref_q ref_a)) →
  ∀ contaminated records,
    Forall P contaminated →
    scan q_key a_key threshold input_entry input_q input_a reference_data
      contaminated = Return records →
    Forall P records.
Proof.
  intros Hbody.
  induction reference_data as [|ref_entry rest IH]; intros acc records Hacc.
  { by intros [= <-]. }
  cbn [scan]. destruct (ref_strings q_key a_key ref_entry) as [[rq ra]|e];
    [|done].
  apply IH. apply Forall_app. auto.
Qed.


Lemma first_rule_exact (threshold : Qc) (cand_q cand_a ref_q ref_a : string) :
  cand_q = ref_q ∨ cand_a = ref_a →
  first_rule threshold cand_q cand_a ref_q ref_a = Some (exact_match, 1%Qc).
Proof. intros H. unfold first_rule. by rewrite bool_decide_true. Qed.


Lemma scan_triples (q_key a_key : string) (threshold : Qc)
    (c1 c2 : json) (input_q input_a : string) (reference_data : list json) :
  ∀ acc1 acc2,
    triple <$> acc1 = triple <$> acc2 →
    triples ([], scan q_key a_key threshold c1 input_q input_a
                   reference_data acc1)
    = triples ([], scan q_key a_key threshold c2 input_q input_a
                     reference_data acc2).
Proof.
  induction reference_data as [|ref_entry rest IH]; intros acc1 acc2 Hacc.
  { unfold triples. cbn. by rewrite Hacc. }
  cbn [scan]. destruct (ref_strings q_key a_key ref_entry) as [[rq ra]|e];
    [|done].
  apply IH. rewrite !fmap_app, Hacc. f_equal.
  unfold verdict_records. by destruct (verdict _ _ _ _ _) as [[]|].
Qed.

(** C10. The candidate is read under the keys "question" and "answer" only:
    two candidate records that agree under these two keys give the same
    diagnostics, the same exception if any, and the same (reference entry,
    kind, score) triples in the same order, whatever [q_key], [a_key] and
    the other fields of the two records are. *)
Theorem check_entry_noninterference (json_loads : string → option json)
    (reference_data : list json) (line1 line2 file : string)
    (q_key a_key : string) (threshold : Qc) (m1 m2 : gmap string json) :
  json_loads (Text.strip line1) = Some (JObj m1) →
  json_loads (Text.strip line2) = Some (JObj m2) →
  m1 !! "question"%string = m2 !! "question"%string →
  m1 !! "answer"%string = m2 !! "answer"%string →
  triples (check_entry json_loads reference_data (line1, file)
             q_key a_key threshold)
  = triples (check_entry json_loads reference_data (line2, file)
               q_key a_key threshold).
Proof.
  intros Hl1 Hl2 Hq Ha.
  rewrite check_entry_view with (input_entry := JObj m1) by done.
  rewrite check_entry_view with (input_entry := JObj m2) by done.
  unfold cand_strings. rewrite Hq, Ha.
  destruct (default _ (m2 !! "question"%string)); try done.
  destruct (default _ (m2 !! "answer"%string)); try done.
  by apply scan_triples.
Qed.

(** ** Worker pool and aggregation *)

Section PoolFacts.

Context {T R : Type}.
Variable worker_func : T → R.
Variable processes : nat.

Lemma pool_step_inv (tasks : list T) (st st' : pool_state) :
  pool_step worker_func processes st st' →
  pool_inv worker_func tasks st → pool_inv worker_func tasks st'.
Proof.
  unfold pool_inv. intros Hstep Hinv. destruct Hstep; cbn in *.
  - rewrite <- Hinv, !fmap_app. cbn. by rewrite <- !app_assoc.
  - rewrite <- Hinv, !fmap_app. cbn. rewrite <- !app_assoc. cbn.
    apply Permutation_app_head, Permutation_middle.
Qed.

Lemma pool_rtc_inv (tasks : list T) (st : pool_state) :
  rtc (pool_step worker_func processes) (pool_init tasks) st →
  pool_inv worker_func tasks st.
Proof.
  revert st. apply rtc_ind_r.
  - unfold pool_inv. by cbn.
  - intros st st' _ Hstep IH. by eapply pool_step_inv.
Qed.

(** Every delivery order is a permutation of the results of the tasks. *)
Lemma imap_unordered_perm (tasks : list T) (rs : list R) :
  imap_unordered worker_func processes tasks rs →
  rs ≡ₚ worker_func <$> tasks.
Proof.
  intros ([q run arr] & Hrun & [Hq Hr] & Harr). cbn in *. subst.
  apply pool_rtc_inv in Hrun. unfold pool_inv in Hrun. cbn in Hrun.
  by rewrite app_nil_r in Hrun.
Qed.

Lemma pool_sequential (q : list T) (arr : list R) :
  0 < processes →
  rtc (pool_step worker_func processes) (PoolState q [] arr)
      (PoolState [] [] (arr ++ (worker_func <$> q))).
Proof.
  intros Hn. revert arr. induction q as [|t q IH]; intros arr.
  { cbn. by rewrite app_nil_r. }
  eapply rtc_l; [by apply step_dispatch|].
  eapply rtc_l; [apply (step_complete _ _ q [] t [] arr)|].
  cbn. specialize (IH (arr ++ [worker_func t])).
  by rewrite <- app_assoc in IH.
Qed.

(** With at least one worker the pool delivers every result. *)
Lemma imap_unordered_total (tasks : list T) :
  0 < processes →
  imap_unordered worker_func processes tasks (worker_func <$> tasks).
Proof.
  intros Hn. exists (PoolState [] [] (worker_func <$> tasks)).
  split_and!; [|done|done]. by apply (pool_sequential tasks []).
Qed.

End PoolFacts.

Lemma collect_step (res : M (list match_record))
    (rest : list (M (list match_record))) (acc : list match_record) :
  result (for_each extend (res :: rest) acc)
  = match res.2 with
    | Return r => result (for_each extend rest (acc ++ r))
    | Raise e => Raise e
    end.
Proof.
  cbn [for_each]. destruct res as [d [r|e]]; [|done].
  unfold result, mbind, M_bind, mret, M_ret. by cbn.
Qed.


Lemma collect_raises (rs : list (M (list match_record)))
    (acc : list match_record) :
  Exists raises rs → ∃ e, result (for_each extend rs acc) = Raise e.
Proof.
  intros Hrs. revert acc. induction rs as [|res rest IH]; intros acc.
  { by apply Exists_nil in Hrs. }
  rewrite collect_step. destruct (res.2) as [r|e] eqn:E; [|by exists e].
  apply Exists_cons in Hrs as [[e He]|Hrest]; [congruence|]. by apply IH.
Qed.

Lemma raises_or_not (rs : list (M (list match_record))) :
  Forall (λ res, ¬ raises res) rs ∨ Exists raises rs.
Proof.
  induction rs as [|res rest [IH|IH]].
  - left. constructor.
  - destruct (res.2) as [r|e] eqn:E.
    + left. constructor; [|done]. intros [e He]. congruence.
    + right. apply Exists_cons_hd. by exists e.
  - right. by apply Exists_cons_tl.
Qed.






(** ** Candidate stream *)

(** When every input file can be read, the stream is the non-blank lines
    of the files, file after file and line after line. *)
Lemma get_all_lines_readable (fs : gmap string (list string))
    (input_files : list string) :
  Forall (λ input_file, is_Some (fs !! input_file)) input_files →
  get_all_lines fs input_files
  = mret (input_file ← input_files;
          (λ line, (line, input_file))
          <$> filter (λ line, Text.strip line ≠ ""%string)
                (default [] (fs !! input_file))).
Proof.
  unfold get_all_lines. intros Hfiles.
  match goal with |- _ = mret ?r => change r with ([] ++ r) end.
  generalize (@nil (string * string)) as yielded.
  induction Hfiles as [|input_file rest [f Hf] _ IH]; intros yielded.
  { cbn. by rewrite app_nil_r. }
  cbn [for_each mbind list_bind]. rewrite Hf, M_ret_bind, IH. cbn [default].
  by rewrite <- app_assoc.
Qed.

(** ** Reference loader *)

Lemma M_bind_pair {A B} (d : list string) (a : A) (f : A → M B) :
  (d, Return a) ≫= f = (d ++ (f a).1, (f a).2).
Proof. done. Qed.

Lemma load_jsonl_line_record (json_loads : string → option json)
    (q_key a_key : string) (acc : list json) (line : string)
    (m : gmap string json) :
  json_loads (Text.strip line) = Some (JObj m) →
  load_jsonl_line json_loads q_key a_key acc line
  = mret (acc ++
          if bool_decide (is_Some (m !! q_key))
             && bool_decide (is_Some (m !! a_key))
          then [JObj m] else []).
Proof.
  intros Hload. unfold load_jsonl_line. rewrite Hload.
  unfold has_keys, contains. rewrite M_ret_bind.
  destruct (bool_decide (is_Some (m !! q_key))); cbn [andb];
    [destruct (bool_decide (is_Some (m !! a_key)))|];
    rewrite !M_ret_bind; by rewrite ?app_nil_r.
Qed.

Lemma load_jsonl_line_invalid (json_loads : string → option json)
    (q_key a_key : string) (acc : list json) (line : string) :
  json_loads (Text.strip line) = None →
  load_jsonl_line json_loads q_key a_key acc line
  = (["Invalid JSON in reference JSONL: " +:+ line], Return acc).
Proof. intros Hload. unfold load_jsonl_line. by rewrite Hload. Qed.

(** On lines that are not JSON or that decode to records, the loader keeps
    the records with both keys, in line order, and prints one diagnostic per
    line that is not JSON, and nothing else. *)
Lemma load_reference_jsonl_records (json_loads : string → option json)
    (q_key a_key : string) (f : list string) :
  Forall (λ line, match json_loads (Text.strip line) with
                  | Some (JObj _) | None => True
                  | Some _ => False
                  end) f →
  load_reference_jsonl json_loads q_key a_key f
  = (omap (λ line, match json_loads (Text.strip line) with
                   | None => Some ("Invalid JSON in reference JSONL: " +:+ line)
                   | Some _ => None
                   end) f,
     Return (omap (λ line, match json_loads (Text.strip line) with
                           | Some (JObj m) =>
                               if bool_decide (is_Some (m !! q_key))
                                  && bool_decide (is_Some (m !! a_key))
                               then Some (JObj m) else None
                           | _ => None
                           end) f)).
Proof.
  unfold load_reference_jsonl. intros Hf.
  change (omap ?g f) with ([] ++ omap g f) at 2.
  generalize (@nil json) as acc. induction Hf as [|line f Hline _ IH]; intros acc.
  { cbn. by rewrite app_nil_r. }
  cbn [for_each omap list_omap].
  destruct (json_loads (Text.strip line)) as [[| | | | | |m]|] eqn:Hload;
    try done.
  - rewrite (load_jsonl_line_record _ _ _ _ _ m), M_ret_bind, IH by done.
    destruct (_ && _); by rewrite <- app_assoc.
  - rewrite load_jsonl_line_invalid, M_bind_pair, IH by done. done.
Qed.

(** C8, at a reference file holding a complete record and a record without
    its answer. The loader for files drops the second record and prints
    nothing; the loader for datasets of the hub, on the same two records,
    prints a diagnostic for it. *)
Theorem load_reference_jsonl_missing_key_silent :
  load_reference_jsonl Sample.loads "question" "answer"
    [Sample.nl (Sample.line_qa "What is 2+2?" "4");
     Sample.nl (Sample.line_q "Only a question")]
  = ([], Return [Sample.obj_qa "What is 2+2?" "4"])
  ∧ printed (load_reference_hf Sample.py_str "question" "answer"
               [Sample.obj_qa "What is 2+2?" "4";
                Sample.obj_q "Only a question"])
    = ["Entry missing keys question or answer: <entry>"%string].
Proof. split; vm_compute; reflexivity. Qed.

(** ** Examples *)


(** The two questions with token sets {a, b, c, d} and {a, b, c, e} have
    similarity 3/5: no record at threshold 0.8, a jaccard_question record of
    that score at threshold 0.5. *)
Example threshold_example :
  result (check_entry Sample.loads [Sample.obj_qa "a b c d" "x"]
            (Sample.nl (Sample.line_qa "a b c e" "y"), "in.jsonl"%string)
            "question" "answer" (Q2Qc (4 # 5)))
  = Return []
  ∧ (triple <$> returned
       (check_entry Sample.loads [Sample.obj_qa "a b c d" "x"]
          (Sample.nl (Sample.line_qa "a b c e" "y"), "in.jsonl"%string)
          "question" "answer" (Q2Qc (1 # 2))))
    = [(Sample.obj_qa "a b c d" "x", jaccard_question, Q2Qc (3 # 5))].
Proof. split; vm_compute; reflexivity. Qed.

(** A question that is a number, a reference line that is a list holding
    both key names, and a reference line that is a number. *)
Example untyped_fields :
  Sample.worker (Sample.nl Sample.line_q5) = ([], Raise AttributeError)
  ∧ load_reference_jsonl Sample.loads "question" "answer"
      [Sample.nl Sample.line_list]
    = ([], Return [Sample.obj_list])
  ∧ load_reference_jsonl Sample.loads "question" "answer" [Sample.nl "7"]
    = ([], Raise TypeError).
Proof. split_and!; vm_compute; reflexivity. Qed.



Lemma jaccard_similarity_spec_witness :
  ¬ (({["a"%string]} : gset string) = ∅ ∧ ({["b"%string]} : gset string) = ∅)
  ∧ jaccard_similarity {["a"%string]} {["b"%string]}
    = (if bool_decide (size (({["a"%string]} : gset string) ∪ {["b"%string]}) ≠ 0)
       then (Q2Qc (inject_Z (Z.of_nat (size (({["a"%string]} : gset string) ∩ {["b"%string]}))))
             / Q2Qc (inject_Z (Z.of_nat (size (({["a"%string]} : gset string) ∪ {["b"%string]})))))%Qc
       else 0%Qc)
  ∧ size (({["a"%string]} : gset string) ∪ {["b"%string]}) ≠ 0.
Proof.
  assert (¬ (({["a"%string]} : gset string) = ∅
             ∧ ({["b"%string]} : gset string) = ∅)) as Hne.
  { intros [H _]. discriminate H. }
  split; [exact Hne|].
  exact (proj1 (proj2 jaccard_similarity_spec) {["a"%string]} {["b"%string]} Hne).
Defined.





(** The same question and answer with and without a third field. *)
Lemma check_entry_noninterference_witness :
  triples (Sample.worker (Sample.nl (Sample.line_qa "What is 2+2?" "five")))
  = triples (Sample.worker
               (Sample.nl (Sample.line_qa_src "What is 2+2?" "five"))).
Proof.
  apply (check_entry_noninterference Sample.loads Sample.refs
           (Sample.nl (Sample.line_qa "What is 2+2?" "five"))
           (Sample.nl (Sample.line_qa_src "What is 2+2?" "five"))
           "in.jsonl" "question" "answer" Sample.threshold
           (<["answer"%string := JStr "five"]>
              {["question"%string := JStr "What is 2+2?"]})
           (<["source"%string := JStr "web"]>
              (<["answer"%string := JStr "five"]>
                 {["question"%string := JStr "What is 2+2?"]}))).
  - reflexivity.
  - reflexivity.
  - reflexivity.
  - reflexivity.
Defined.

(** ** Trimming *)

Section Strip.
Import Text.

Local Abbreviation space := (λ c, isspace c = true).
Local Abbreviation nonspace := (λ c, isspace c = false).

Lemma lstrip_chars_space (ws l : list ascii) :
  Forall space ws → lstrip_chars (ws ++ l) = lstrip_chars l.
Proof. induction 1 as [|c ws Hc _ IH]; [done|]. cbn. by rewrite Hc. Qed.

Lemma lstrip_chars_split (l : list ascii) :
  ∃ ws, l = ws ++ lstrip_chars l ∧ Forall space ws
        ∧ (lstrip_chars l = []
           ∨ ∃ c m, lstrip_chars l = c :: m ∧ isspace c = false).
Proof.
  induction l as [|c l (ws & Hl & Hws & Hhead)].
  - exists []. split_and!; [done|constructor|by left].
  - cbn [lstrip_chars]. destruct (isspace c) eqn:Hc.
    + exists (c :: ws). split_and!; [cbn; congruence|by constructor|done].
    + exists []. split_and!; [done|constructor|right; eauto].
Qed.

Lemma rstrip_chars_space (l ws : list ascii) :
  Forall space ws → rstrip_chars (l ++ ws) = rstrip_chars l.
Proof.
  intros Hws. unfold rstrip_chars.
  by rewrite rev_app_distr, lstrip_chars_space by by apply Forall_rev.
Qed.

Lemma rstrip_chars_last (m : list ascii) (c : ascii) :
  isspace c = false → rstrip_chars (m ++ [c]) = m ++ [c].
Proof.
  intros Hc. unfold rstrip_chars. rewrite rev_app_distr.
  cbn [rev app lstrip_chars]. rewrite Hc. cbn [rev].
  by rewrite rev_involutive.
Qed.

Lemma rstrip_chars_split (l : list ascii) :
  ∃ ws, l = rstrip_chars l ++ ws ∧ Forall space ws
        ∧ (rstrip_chars l = []
           ∨ ∃ m c, rstrip_chars l = m ++ [c] ∧ isspace c = false).
Proof.
  destruct (lstrip_chars_split (rev l)) as (ws & Hl & Hws & Hhead).
  exists (rev ws). unfold rstrip_chars. split_and!.
  - by rewrite <- rev_app_distr, <- Hl, rev_involutive.
  - by apply Forall_rev.
  - destruct Hhead as [->|(c & m & -> & Hc)]; [by left|right].
    exists (rev m), c. by cbn.
Qed.

Lemma rstrip_chars_head (c : ascii) (m : list ascii) :
  isspace c = false →
  ∃ m', rstrip_chars (c :: m) = c :: m'.
Proof.
  intros Hc. destruct (rstrip_chars_split (c :: m)) as (ws & Hl & Hws & _).
  destruct (rstrip_chars (c :: m)) as [|c' m'] eqn:E.
  - cbn in Hl. subst ws. apply Forall_cons in Hws as [Hc' _]. congruence.
  - cbn in Hl. injection Hl as <- _. eauto.
Qed.

Lemma strip_chars_unique (ws1 m ws2 : list ascii) :
  Forall space ws1 → Forall space ws2 → trimmed m →
  rstrip_chars (lstrip_chars (ws1 ++ m ++ ws2)) = m.
Proof.
  intros Hws1 Hws2 Hm. rewrite lstrip_chars_space by done.
  destruct Hm as [->|[(c & m' & -> & Hc) (m'' & c' & Hm & Hc')]].
  - cbn [app]. rewrite <- (app_nil_r ws2), lstrip_chars_space by done. done.
  - cbn [app lstrip_chars]. rewrite Hc.
    change (c :: m' ++ ws2) with ((c :: m') ++ ws2).
    rewrite rstrip_chars_space by done. rewrite Hm. by apply rstrip_chars_last.
Qed.

Lemma strip_chars_split (l : list ascii) :
  ∃ ws1 ws2,
    l = ws1 ++ rstrip_chars (lstrip_chars l) ++ ws2
    ∧ Forall space ws1 ∧ Forall space ws2
    ∧ trimmed (rstrip_chars (lstrip_chars l)).
Proof.
  destruct (lstrip_chars_split l) as (ws1 & Hl & Hws1 & Hhead).
  destruct (rstrip_chars_split (lstrip_chars l)) as (ws2 & Hr & Hws2 & Hlast).
  exists ws1, ws2. split_and!; [by rewrite <- Hr|done..|].
  destruct Hlast as [->|Hlast]; [by left|right]. split; [|done].
  destruct Hhead as [E|(c & m & E & Hc)].
  - rewrite E in *. destruct Hlast as (m & c & Hm & _). by destruct m.
  - rewrite E. destruct (rstrip_chars_head c m Hc) as [m' ->]. eauto.
Qed.

End Strip.

(** [strip] cuts a text into leading whitespace, a part without whitespace
    at either end, and trailing whitespace, and returns the middle part; no
    other cut of the text has this shape. *)
Theorem strip_spec (s : string) :
  (∃ ws1 ws2,
     Text.chars s = ws1 ++ Text.chars (Text.strip s) ++ ws2
     ∧ Forall (λ c, Text.isspace c = true) ws1
     ∧ Forall (λ c, Text.isspace c = true) ws2
     ∧ trimmed (Text.chars (Text.strip s)))
  ∧ (∀ ws1 m ws2,
       Text.chars s = ws1 ++ m ++ ws2 →
       Forall (λ c, Text.isspace c = true) ws1 →
       Forall (λ c, Text.isspace c = true) ws2 →
       trimmed m →
       Text.chars (Text.strip s) = m).
Proof.
  unfold Text.strip. rewrite chars_text. split.
  - apply strip_chars_split.
  - intros ws1 m ws2 -> Hws1 Hws2 Hm. by apply strip_chars_unique.
Qed.

(** ** Tokens *)

Section Tokens.
Import Text.

Local Abbreviation space := (λ c, isspace c = true).
Local Abbreviation nonspace := (λ c, isspace c = false).

Lemma lower_char_idemp (c : ascii) : lower_char (lower_char c) = lower_char c.
Proof. destruct c as [[] [] [] [] [] [] [] []]; reflexivity. Qed.

Lemma kept_lower_char (c : ascii) : kept (lower_char c) = kept c.
Proof. destruct c as [[] [] [] [] [] [] [] []]; reflexivity. Qed.

Lemma isspace_lower_char (c : ascii) : isspace (lower_char c) = isspace c.
Proof. destruct c as [[] [] [] [] [] [] [] []]; reflexivity. Qed.

Lemma isword_lower_char (c : ascii) : isword (lower_char c) = isword c.
Proof. destruct c as [[] [] [] [] [] [] [] []]; reflexivity. Qed.

Lemma kept_word_or_space (c : ascii) : kept c = isword c || isspace c.
Proof. symmetry. apply isword_kept. Qed.

Lemma word_not_space (c : ascii) : isword c = true → isspace c = false.
Proof. destruct c as [[] [] [] [] [] [] [] []]; (reflexivity || discriminate). Qed.

Lemma chars_app (s1 s2 : string) : chars (s1 +:+ s2) = chars s1 ++ chars s2.
Proof.
  unfold chars. induction s1 as [|c s1 IH]; [done|].
  change (String c s1 +:+ s2) with (String c (s1 +:+ s2)).
  cbn [list_ascii_of_string app]. by f_equal.
Qed.

Lemma normalized_app (s1 s2 : string) :
  normalized (s1 +:+ s2) = normalized s1 ++ normalized s2.
Proof. unfold normalized. by rewrite chars_app, map_app, filter_app. Qed.

Lemma normalized_char (c : ascii) (s : string) :
  normalized (String c s)
  = (if kept c then [lower_char c] else []) ++ normalized s.
Proof.
  unfold normalized. cbn [chars list_ascii_of_string map].
  rewrite filter_cons, kept_lower_char. by destruct (kept c).
Qed.

Lemma tokenize_normalized (s : string) :
  tokenize s = list_to_set (text <$> split_scan [] (normalized s)).
Proof. unfold tokenize, split. by rewrite chars_normalized. Qed.

Lemma split_scan_last_space (p : list ascii) (c : ascii) (cur : list ascii) :
  isspace c = true → split_scan cur (p ++ [c]) = split_scan cur p.
Proof.
  intros Hc. revert cur. induction p as [|a p IH]; intros cur; cbn [app split_scan].
  - rewrite Hc. by destruct cur; rewrite ?app_nil_r.
  - destruct (isspace a); [|apply IH]. destruct cur; by rewrite IH.
Qed.

Lemma split_scan_nil_iff (l cur : list ascii) :
  split_scan cur l = [] ↔ cur = [] ∧ Forall space l.
Proof.
  revert cur. induction l as [|c l IH]; intros cur; cbn [split_scan].
  - destruct cur; [by split; [intros; split; [|constructor]|]|].
    split; [done|by intros []].
  - destruct (isspace c) eqn:Hc.
    + destruct cur.
      * rewrite IH. split; intros [? H]; split; try done.
        -- by constructor.
        -- by apply Forall_cons in H as [_ ?].
      * split; [done|by intros []].
    + rewrite IH. split; [by intros []|].
      intros [_ [Hc' _]%Forall_cons]. congruence.
Qed.

Lemma normalized_shape (s : string) :
  Forall (λ c, kept c = true ∧ lower_char c = c) (normalized s).
Proof.
  unfold normalized. apply Forall_forall. intros c [Hk Hin]%list_elem_of_filter.
  apply list_elem_of_fmap in Hin as (c' & -> & _).
  split; [done|apply lower_char_idemp].
Qed.

End Tokens.

(** Letter case does not matter to the tokenizer. *)
Theorem tokenize_case_insensitive (s : string) :
  tokenize (Text.lower s) = tokenize s.
Proof.
  rewrite !tokenize_normalized. do 2 f_equal. unfold normalized, Text.lower.
  rewrite chars_text, map_map.
  by rewrite (map_ext _ Text.lower_char lower_char_idemp).
Qed.


(** Whitespace separates: the tokens of two texts joined by a whitespace
    character are the tokens of the one and of the other. *)
Theorem tokenize_whitespace_union (s1 s2 : string) (c : ascii) :
  Text.isspace c = true →
  tokenize (s1 +:+ String c s2) = tokenize s1 ∪ tokenize s2.
Proof.
  intros Hs. rewrite !tokenize_normalized, normalized_app, normalized_char.
  rewrite kept_word_or_space, Hs, orb_true_r. cbn [app].
  assert (Text.isspace (Text.lower_char c) = true) as Hs'
    by by rewrite isspace_lower_char.
  rewrite split_scan_boundary by done.
  rewrite split_scan_last_space by done.
  by rewrite fmap_app, list_to_set_app_L.
Qed.

(** A token is not empty and is made of word characters that lower-casing
    leaves as they are. *)
Theorem tokenize_token_shape (s t : string) :
  t ∈ tokenize s →
  t ≠ ""%string
  ∧ Forall (λ c, Text.isword c = true ∧ Text.lower_char c = c) (Text.chars t).
Proof.
  rewrite tokenize_normalized, elem_of_list_to_set, list_elem_of_fmap.
  intros (w & -> & Hw). rewrite chars_text.
  apply (split_scan_sound _ []) in Hw
    as (Hne & Hns & pre & post & Hnorm & _); [|constructor].
  split; [by destruct w|].
  pose proof (normalized_shape s) as Hshape. cbn [rev app] in Hnorm.
  rewrite Hnorm in Hshape.
  apply Forall_app in Hshape as [_ [Hshape _]%Forall_app].
  apply Forall_forall. intros c Hc. rewrite Forall_forall in Hshape, Hns.
  destruct (Hshape c Hc) as [Hk Hl]. specialize (Hns c Hc). cbn in Hns.
  split; [|done]. by rewrite kept_word_or_space, Hns, orb_false_r in Hk.
Qed.

(** A text has no token exactly when it has no word character. *)
Theorem tokenize_empty_iff (s : string) :
  tokenize s = ∅ ↔ Forall (λ c, Text.isword c = false) (Text.chars s).
Proof.
  rewrite tokenize_normalized.
  assert (∀ l : list (list ascii),
            list_to_set (Text.text <$> l) = (∅ : gset string) ↔ l = [])
    as ->.
  { intros [|x l]; [done|]. split; [|done]. cbn. set_solver. }
  rewrite split_scan_nil_iff. unfold normalized.
  induction (Text.chars s) as [|c l IH].
  - split; [constructor|]. split; [done|constructor].
  - cbn [map]. rewrite filter_cons, kept_lower_char, Forall_cons, <- IH.
    rewrite kept_word_or_space. destruct (Text.isword c) eqn:Hw; cbn [orb].
    + rewrite decide_True by done. split; [|by intros []].
      intros [_ [Hs _]%Forall_cons].
      rewrite isspace_lower_char, word_not_space in Hs; done.
    + destruct (Text.isspace c) eqn:Hs.
      * rewrite decide_True by done.
        split; [intros [_ [_ ?]%Forall_cons]; done|].
        intros [_ [_ ?]]. split; [done|]. constructor; [|done].
        by rewrite isspace_lower_char.
      * rewrite decide_False by done. tauto.
Qed.

(** ** Extreme scores *)

Lemma true_div_one_iff (a b : nat) : b ≠ 0 → true_div a b = 1%Qc ↔ a = b.
Proof.
  intros Hb. unfold true_div. split.
  - intros H. apply (f_equal this) in H. cbn [this Q2Qc] in H.
    assert (Z.of_nat a # Pos.of_nat b == 1)%Q as Heq
      by by rewrite <- (Qred_correct (_ # _)), H.
    unfold Qeq in Heq. cbn [Qnum Qden] in Heq.
    destruct b as [|b]; [done|]. rewrite <- Pos.of_nat_succ in Heq. lia.
  - intros ->. apply Qc_is_canon. cbn [this Q2Qc]. rewrite !Qred_correct.
    unfold Qeq. cbn [Qnum Qden].
    destruct b as [|b]; [done|]. rewrite <- Pos.of_nat_succ. lia.
Qed.

Lemma true_div_zero_iff (a b : nat) : true_div a b = 0%Qc ↔ a = 0.
Proof.
  unfold true_div. split.
  - intros H. apply (f_equal this) in H. cbn [this Q2Qc] in H.
    assert (Z.of_nat a # Pos.of_nat b == 0)%Q as Heq
      by by rewrite <- (Qred_correct (_ # _)), H.
    unfold Qeq in Heq. cbn [Qnum Qden] in Heq. lia.
  - intros ->. by apply Qc_is_canon.
Qed.

(** The score is 1.0 exactly when the two token sets are equal; in
    particular a text always scores 1.0 against itself. *)
Theorem jaccard_similarity_one_iff (A B : gset string) :
  jaccard_similarity A B = 1%Qc ↔ A = B.
Proof.
  unfold jaccard_similarity. cbv zeta.
  destruct (bool_decide (A = ∅) && bool_decide (B = ∅)) eqn:E.
  { apply both_empty_iff in E as [-> ->]. done. }
  assert (¬ (A = ∅ ∧ B = ∅)) as Hne.
  { intros H. apply both_empty_iff in H. congruence. }
  pose proof (union_size_pos A B Hne) as Hu.
  rewrite bool_decide_true by done. rewrite true_div_one_iff by done. split.
  - intros Hsz. assert (A ∩ B = A ∪ B) as Heq.
    { apply set_subseteq_size_eq; [set_solver|lia]. }
    apply leibniz_equiv. set_solver.
  - intros ->. f_equal. apply leibniz_equiv. set_solver.
Qed.

(** The score is 0.0 exactly when the two token sets share no token and
    are not both empty. *)
Theorem jaccard_similarity_zero_iff (A B : gset string) :
  jaccard_similarity A B = 0%Qc ↔ A ∩ B = ∅ ∧ ¬ (A = ∅ ∧ B = ∅).
Proof.
  unfold jaccard_similarity. cbv zeta.
  destruct (bool_decide (A = ∅) && bool_decide (B = ∅)) eqn:E.
  { apply both_empty_iff in E. split; [done|]. by intros [_ []]. }
  assert (¬ (A = ∅ ∧ B = ∅)) as Hne.
  { intros H. apply both_empty_iff in H. congruence. }
  pose proof (union_size_pos A B Hne) as Hu.
  rewrite bool_decide_true by done. rewrite true_div_zero_iff. split.
  - intros Hsz. split; [|done]. apply leibniz_equiv. by apply size_empty_inv.
  - intros [-> _]. apply size_empty.
Qed.

(** ** Entry matcher: errors, thresholds and origin of the records *)

Lemma pair_record_ref (q_key a_key : string) (threshold : Qc) (cand : json)
    (cand_q cand_a : string) (ref : json) (r : match_record) :
  pair_record q_key a_key threshold cand cand_q cand_a ref = Some r →
  rec_ref r = ref.
Proof. unfold pair_record. repeat case_match; naive_solver. Qed.

Lemma first_rule_mono (t1 t2 : Qc) (cand_q cand_a ref_q ref_a : string) :
  (t1 ≤ t2)%Qc →
  is_Some (first_rule t2 cand_q cand_a ref_q ref_a) →
  is_Some (first_rule t1 cand_q cand_a ref_q ref_a).
Proof.
  intros Ht. unfold first_rule.
  destruct (bool_decide (_ ∨ _)); [done|].
  destruct (bool_decide (t2 ≤ jaccard_similarity (tokenize cand_q) _)%Qc) eqn:E2.
  { apply bool_decide_eq_true in E2.
    rewrite bool_decide_true by by etrans. done. }
  destruct (bool_decide (t2 ≤ jaccard_similarity (tokenize cand_a) _)%Qc) eqn:E3;
    [|by intros []%is_Some_None].
  apply bool_decide_eq_true in E3. intros _.
  destruct (bool_decide (t1 ≤ jaccard_similarity (tokenize cand_q) _)%Qc);
    [done|].
  rewrite bool_decide_true by by etrans. done.
Qed.

Lemma first_rule_nonpositive (threshold : Qc)
    (cand_q cand_a ref_q ref_a : string) :
  (threshold ≤ 0)%Qc →
  is_Some (first_rule threshold cand_q cand_a ref_q ref_a).
Proof.
  intros Ht. unfold first_rule. destruct (bool_decide (_ ∨ _)); [done|].
  rewrite bool_decide_true; [done|].
  etrans; [done|]. apply jaccard_similarity_range.
Qed.

(** A candidate whose trimmed question equals the trimmed question of a
    reference entry, or whose trimmed answer equals its trimmed answer, gets
    an exact_match record of score 1.0 for that entry, whatever the other
    field holds. *)
Theorem check_entry_exact_match (json_loads : string → option json)
    (reference_data : list json) (line file q_key a_key : string)
    (threshold : Qc) (m : gmap string json) (cand_q cand_a : string)
    (ref_entry : json) (ref_q ref_a : string) :
  json_loads (Text.strip line) = Some (JObj m) →
  candidate_field m "question" = Some cand_q →
  candidate_field m "answer" = Some cand_a →
  Forall (reference_entry q_key a_key) reference_data →
  ref_entry ∈ reference_data →
  str_field ref_entry q_key = Some ref_q →
  str_field ref_entry a_key = Some ref_a →
  Text.strip cand_q = Text.strip ref_q ∨ Text.strip cand_a = Text.strip ref_a →
  ∃ records,
    check_entry json_loads reference_data (line, file) q_key a_key threshold
    = ([], Return records)
    ∧ (ref_entry, JObj m, exact_match, 1%Qc) ∈ records.
Proof.
  intros Hload Hq Ha Hrefs Hin Hrq Hra Heq.
  exists (spec_matches q_key a_key threshold (JObj m) cand_q cand_a
            reference_data).
  split; [by apply check_entry_typed|]. apply list_elem_of_omap.
  exists ref_entry. split; [done|].
  unfold pair_record. by rewrite Hrq, Hra, first_rule_exact.
Qed.


(** On a line that decodes the matcher prints nothing, whether it returns or
    raises. *)
Theorem check_entry_silent_on_json (json_loads : string → option json)
    (reference_data : list json) (line file q_key a_key : string)
    (threshold : Qc) (input_entry : json) :
  json_loads (Text.strip line) = Some input_entry →
  printed (check_entry json_loads reference_data (line, file) q_key a_key
             threshold) = [].
Proof.
  intros Hload. rewrite check_entry_view with (input_entry := input_entry)
    by done.
  by destruct (cand_strings input_entry) as [[]|].
Qed.



Lemma spec_matches_all (q_key a_key : string) (threshold : Qc) (cand : json)
    (cand_q cand_a : string) (reference_data : list json) :
  (threshold ≤ 0)%Qc →
  Forall (reference_entry q_key a_key) reference_data →
  rec_ref <$> spec_matches q_key a_key threshold cand cand_q cand_a
                reference_data
  = reference_data.
Proof.
  intros Ht Hrefs. unfold spec_matches.
  induction Hrefs as [|ref_entry rest [[rq Hrq] [ra Hra]] _ IH]; [done|].
  cbn [omap list_omap]. unfold pair_record at 1. rewrite Hrq, Hra.
  destruct (first_rule_nonpositive threshold (Text.strip cand_q)
              (Text.strip cand_a) (Text.strip rq) (Text.strip ra) Ht)
    as [[kind score] ->].
  cbn. by rewrite IH.
Qed.

Lemma spec_matches_mono (q_key a_key : string) (t1 t2 : Qc) (cand : json)
    (cand_q cand_a : string) (reference_data : list json) :
  (t1 ≤ t2)%Qc →
  rec_ref <$> spec_matches q_key a_key t2 cand cand_q cand_a reference_data
  `sublist_of`
  rec_ref <$> spec_matches q_key a_key t1 cand cand_q cand_a reference_data.
Proof.
  intros Ht. unfold spec_matches.
  induction reference_data as [|ref_entry rest IH]; [done|].
  cbn [omap list_omap].
  destruct (pair_record q_key a_key t2 _ _ _ ref_entry) as [r2|] eqn:E2.
  - assert (∃ r1, pair_record q_key a_key t1 cand cand_q cand_a ref_entry
                  = Some r1) as [r1 E1].
    { unfold pair_record in *.
      destruct (str_field ref_entry q_key) as [rq|]; [|done].
      destruct (str_field ref_entry a_key) as [ra|]; [|done].
      destruct (first_rule_mono t1 t2 (Text.strip cand_q) (Text.strip cand_a)
                  (Text.strip rq) (Text.strip ra) Ht) as [[k s] ->]; [|eauto].
      by destruct (first_rule t2 _ _ _ _) as [[]|]. }
    rewrite E1. cbn. rewrite (pair_record_ref _ _ _ _ _ _ _ _ E1),
      (pair_record_ref _ _ _ _ _ _ _ _ E2). by constructor.
  - destruct (pair_record q_key a_key t1 _ _ _ ref_entry); [|done].
    cbn. by constructor.
Qed.

(** With a threshold of 0 or less every reference entry is reported once,
    in order, for every well-formed candidate. *)
Theorem check_entry_threshold_nonpositive (json_loads : string → option json)
    (reference_data : list json) (line file q_key a_key : string)
    (threshold : Qc) (m : gmap string json) (cand_q cand_a : string) :
  json_loads (Text.strip line) = Some (JObj m) →
  candidate_field m "question" = Some cand_q →
  candidate_field m "answer" = Some cand_a →
  Forall (reference_entry q_key a_key) reference_data →
  (threshold ≤ 0)%Qc →
  ∃ records,
    check_entry json_loads reference_data (line, file) q_key a_key threshold
    = ([], Return records)
    ∧ rec_ref <$> records = reference_data.
Proof.
  intros Hload Hq Ha Hrefs Ht. eexists. split; [by apply check_entry_typed|].
  by apply spec_matches_all.
Qed.

(** With a threshold above 1 only exact matches are reported. *)
Theorem check_entry_threshold_above_one (json_loads : string → option json)
    (reference_data : list json) (line_file : string * string)
    (q_key a_key : string) (threshold : Qc)
    (diagnostics : list string) (records : list match_record) :
  (1 < threshold)%Qc →
  check_entry json_loads reference_data line_file q_key a_key threshold
  = (diagnostics, Return records) →
  Forall (λ r, rec_kind r = exact_match ∧ rec_score r = 1%Qc) records.
Proof.
  intros Ht. destruct line_file as [line file].
  destruct (json_loads (Text.strip line)) as [input_entry|] eqn:Hload.
  - rewrite check_entry_view with (input_entry := input_entry) by done.
    destruct (cand_strings input_entry) as [[input_q input_a]|e]; [|done].
    intros [= _ Hscan]. revert Hscan. apply scan_Forall; [|done].
    intros ref_entry ref_q ref_a. unfold verdict_records.
    destruct (verdict _ _ _ _ _) as [[kind score]|] eqn:E; [|done].
    apply Forall_singleton. apply verdict_score in E as [[-> ->]|(_ & H1 & H2)].
    + done.
    + exfalso. apply (Qclt_not_le _ _ Ht). by etrans.
  - rewrite check_entry_invalid by done. by intros [= _ <-].
Qed.

(** Raising the threshold never adds a reference entry to those reported
    for a candidate. *)
Theorem check_entry_threshold_monotone (json_loads : string → option json)
    (reference_data : list json) (line file q_key a_key : string)
    (t1 t2 : Qc) (m : gmap string json) (cand_q cand_a : string) :
  json_loads (Text.strip line) = Some (JObj m) →
  candidate_field m "question" = Some cand_q →
  candidate_field m "answer" = Some cand_a →
  Forall (reference_entry q_key a_key) reference_data →
  (t1 ≤ t2)%Qc →
  ∃ records1 records2,
    check_entry json_loads reference_data (line, file) q_key a_key t1
    = ([], Return records1)
    ∧ check_entry json_loads reference_data (line, file) q_key a_key t2
      = ([], Return records2)
    ∧ rec_ref <$> records2 `sublist_of` rec_ref <$> records1.
Proof.
  intros Hload Hq Ha Hrefs Ht. eexists _, _.
  split_and!; [by apply check_entry_typed..|]. by apply spec_matches_mono.
Qed.

Lemma no_word_split_scan (l : list ascii) :
  Forall (λ c, Text.isword c = false) l →
  Text.split_scan []
    (filter (λ c, kept c = true) (map Text.lower_char l)) = [].
Proof.
  intros Hl. apply split_scan_nil_iff. split; [done|].
  induction Hl as [|c l Hc _ IH]; [constructor|].
  cbn [map]. rewrite filter_cons, kept_lower_char, kept_word_or_space, Hc.
  cbn [orb]. destruct (Text.isspace c) eqn:Hsp.
  - rewrite decide_True by done. constructor; [|done].
    by rewrite isspace_lower_char.
  - by rewrite decide_False by done.
Qed.

Lemma tokenize_strip_no_word (s : string) :
  Forall (λ c, Text.isword c = false) (Text.chars s) →
  tokenize (Text.strip s) = ∅.
Proof.
  intros Hs. rewrite tokenize_normalized. unfold normalized, Text.strip.
  rewrite chars_text.
  destruct (strip_chars_split (Text.chars s)) as (ws1 & ws2 & Hs' & _).
  rewrite Hs' in Hs. apply Forall_app in Hs as [_ [Hs _]%Forall_app].
  by rewrite no_word_split_scan.
Qed.

(** Two questions without any word character have equal, empty token sets:
    at any threshold up to 1 the pair is reported with score 1.0, as an
    exact match or as a question match. *)
Theorem check_entry_no_word_character (json_loads : string → option json)
    (reference_data : list json) (line file q_key a_key : string)
    (threshold : Qc) (m : gmap string json) (cand_q cand_a : string)
    (ref_entry : json) (ref_q ref_a : string) :
  json_loads (Text.strip line) = Some (JObj m) →
  candidate_field m "question" = Some cand_q →
  candidate_field m "answer" = Some cand_a →
  Forall (reference_entry q_key a_key) reference_data →
  ref_entry ∈ reference_data →
  str_field ref_entry q_key = Some ref_q →
  str_field ref_entry a_key = Some ref_a →
  Forall (λ c, Text.isword c = false) (Text.chars cand_q) →
  Forall (λ c, Text.isword c = false) (Text.chars ref_q) →
  (threshold ≤ 1)%Qc →
  ∃ records kind,
    check_entry json_loads reference_data (line, file) q_key a_key threshold
    = ([], Return records)
    ∧ (ref_entry, JObj m, kind, 1%Qc) ∈ records
    ∧ (kind = exact_match ∨ kind = jaccard_question).
Proof.
  intros Hload Hq Ha Hrefs Hin Hrq Hra Hcq Hcr Ht.
  pose proof tokenize_strip_no_word as Hempty.
  exists (spec_matches q_key a_key threshold (JObj m) cand_q cand_a
            reference_data).
  destruct (first_rule threshold (Text.strip cand_q) (Text.strip cand_a)
              (Text.strip ref_q) (Text.strip ref_a)) as [[kind score]|] eqn:E.
  - unfold first_rule in E. rewrite !Hempty in E by done.
    assert (jaccard_similarity ∅ ∅ = 1%Qc) as Hone by done.
    rewrite Hone, (bool_decide_true (threshold ≤ 1)%Qc) in E by done.
    exists kind. split; [by apply check_entry_typed|].
    assert (score = 1%Qc ∧ (kind = exact_match ∨ kind = jaccard_question))
      as [-> Hkind].
    { destruct (bool_decide (_ ∨ _)); simplify_eq; auto. }
    split; [|done]. apply list_elem_of_omap. exists ref_entry.
    split; [done|]. unfold pair_record. rewrite Hrq, Hra.
    unfold first_rule. rewrite !Hempty by done.
    rewrite Hone, (bool_decide_true (threshold ≤ 1)%Qc) by done.
    destruct (bool_decide (_ ∨ _)); by simplify_eq.
  - exfalso. unfold first_rule in E. rewrite !Hempty in E by done.
    assert (jaccard_similarity ∅ ∅ = 1%Qc) as Hone by done.
    rewrite Hone, (bool_decide_true (threshold ≤ 1)%Qc) in E by done.
    by destruct (bool_decide (_ ∨ _)).
Qed.

(** Every record returned for a line refers to an entry of the reference
    collection and embeds the value the line decodes to. *)
Theorem check_entry_records_origin (json_loads : string → option json)
    (reference_data : list json) (line file q_key a_key : string)
    (threshold : Qc) (diagnostics : list string)
    (records : list match_record) :
  check_entry json_loads reference_data (line, file) q_key a_key threshold
  = (diagnostics, Return records) →
  Forall (λ r, rec_ref r ∈ reference_data
               ∧ json_loads (Text.strip line) = Some (rec_input r)) records.
Proof.
  destruct (json_loads (Text.strip line)) as [input_entry|] eqn:Hload.
  - rewrite check_entry_view with (input_entry := input_entry) by done.
    destruct (cand_strings input_entry) as [[input_q input_a]|e]; [|done].
    intros [= _ Hscan]. revert Hscan.
    assert (∀ refs acc recs,
              refs ⊆ reference_data →
              Forall (λ r, rec_ref r ∈ reference_data
                           ∧ Some input_entry = Some (rec_input r)) acc →
              scan q_key a_key threshold input_entry input_q input_a refs acc
              = Return recs →
              Forall (λ r, rec_ref r ∈ reference_data
                           ∧ Some input_entry = Some (rec_input r)) recs)
      as Hgen; [|by apply Hgen].
    induction refs as [|ref_entry rest IH]; intros acc recs Hsub Hacc.
    { by intros [= <-]. }
    cbn [scan].
    destruct (ref_strings q_key a_key ref_entry) as [[rq ra]|e]; [|done].
    apply IH; [set_solver|]. apply Forall_app. split; [done|].
    unfold verdict_records. destruct (verdict _ _ _ _ _) as [[]|]; [|done].
    apply Forall_singleton. split; [|done]. cbn. set_solver.
  - rewrite check_entry_invalid by done. by intros [= _ <-].
Qed.

(** ** Reference loaders and candidate stream, on whole files *)

Lemma M_bind_assoc {A B C} (m : M A) (f : A → M B) (g : B → M C) :
  (m ≫= f) ≫= g = m ≫= (λ x, f x ≫= g).
Proof.
  destruct m as [d [a|e]]; [|done]. unfold mbind, M_bind. cbn.
  destruct (f a) as [d1 [b|e1]]; cbn; [|done].
  destruct (g b) as [d2 o]. cbn. by rewrite app_assoc.
Qed.

Lemma M_bind_ext {A B} (m : M A) (f g : A → M B) :
  (∀ x, f x = g x) → m ≫= f = m ≫= g.
Proof.
  intros Hfg. destruct m as [d [a|e]]; [|done]. unfold mbind, M_bind. cbn.
  by rewrite Hfg.
Qed.

Lemma for_each_app {A S} (body : S → A → M S) (l1 l2 : list A) (s : S) :
  for_each body (l1 ++ l2) s = for_each body l1 s ≫= for_each body l2.
Proof.
  revert s. induction l1 as [|x l1 IH]; intros s; cbn [app for_each].
  - by rewrite M_ret_bind.
  - rewrite M_bind_assoc. apply M_bind_ext. intros s'. apply IH.
Qed.

(** The loader for files, on a file whose lines are not JSON or decode to
    records: it returns, the collection holds, in line order, the decoded
    records that have both keys, each with all its fields, and one
    diagnostic is printed per line that is not JSON, and none for a record
    that is dropped. *)
Theorem load_reference_jsonl_spec (json_loads : string → option json)
    (q_key a_key : string) (f : list string) :
  Forall (record_line json_loads) f →
  ∃ reference_data,
    load_reference_jsonl json_loads q_key a_key f
    = ((λ line, "Invalid JSON in reference JSONL: " +:+ line)
       <$> filter (λ line, json_loads (Text.strip line) = None) f,
       Return reference_data)
    ∧ reference_data
      = omap (λ line, match json_loads (Text.strip line) with
                      | Some (JObj m) =>
                          if bool_decide (is_Some (m !! q_key))
                             && bool_decide (is_Some (m !! a_key))
                          then Some (JObj m) else None
                      | _ => None
                      end) f
    ∧ Forall (λ entry, ∃ m, entry = JObj m ∧ is_Some (m !! q_key)
                            ∧ is_Some (m !! a_key)) reference_data.
Proof.
  intros Hf. eexists. split_and!; [|reflexivity|].
  - rewrite load_reference_jsonl_records by done. f_equal.
    clear Hf. induction f as [|line f IH]; [done|].
    cbn [omap list_omap]. rewrite filter_cons.
    destruct (json_loads (Text.strip line)) eqn:E.
    + by rewrite decide_False by done.
    + rewrite decide_True by done. cbn. by rewrite IH.
  - apply Forall_forall. intros entry (line & _ & Hentry)%list_elem_of_omap.
    destruct (json_loads (Text.strip line)) as [[| | | | | |m]|]; try done.
    destruct (bool_decide (is_Some (m !! q_key))) eqn:Eq; [|done].
    destruct (bool_decide (is_Some (m !! a_key))) eqn:Ea; [|done].
    apply bool_decide_eq_true in Eq, Ea. injection Hentry as <-. eauto.
Qed.

Lemma load_jsonl_line_scalar (json_loads : string → option json)
    (q_key a_key : string) (acc : list json) (line : string) (v : json) :
  json_loads (Text.strip line) = Some v →
  is_scalar v = true →
  load_jsonl_line json_loads q_key a_key acc line = raise TypeError.
Proof.
  intros Hload Hv. unfold load_jsonl_line. rewrite Hload. by destruct v.
Qed.

(** A line that decodes to a number, a boolean or null ends the loading of
    the reference file with [TypeError], whatever follows it. *)
Theorem load_reference_jsonl_scalar_line (json_loads : string → option json)
    (q_key a_key : string) (before after : list string) (line : string)
    (v : json) :
  Forall (record_line json_loads) before →
  json_loads (Text.strip line) = Some v →
  is_scalar v = true →
  result (load_reference_jsonl json_loads q_key a_key
            (before ++ line :: after))
  = Raise TypeError.
Proof.
  intros Hbefore Hload Hv. unfold load_reference_jsonl.
  rewrite for_each_app.
  change (for_each (load_jsonl_line json_loads q_key a_key) before [])
    with (load_reference_jsonl json_loads q_key a_key before).
  rewrite load_reference_jsonl_records by done. rewrite M_bind_pair.
  cbn [for_each]. by rewrite (load_jsonl_line_scalar _ _ _ _ _ v).
Qed.

Lemma load_hf_entry_record (py_str : json → string) (q_key a_key : string)
    (acc : list json) (m : gmap string json) :
  load_hf_entry py_str q_key a_key acc (JObj m)
  = match m !! q_key, m !! a_key with
    | Some vq, Some va =>
        mret (acc ++ [JObj (<[a_key := va]> {[q_key := vq]})])
    | _, _ =>
        (["Entry missing keys " +:+ q_key +:+ " or " +:+ a_key +:+ ": "
          +:+ py_str (JObj m)], Return acc)
    end.
Proof.
  unfold load_hf_entry, has_keys, contains, subscript.
  rewrite M_ret_bind.
  destruct (m !! q_key) as [vq|] eqn:Eq.
  - rewrite bool_decide_true by eauto.
    destruct (m !! a_key) as [va|] eqn:Ea.
    + rewrite bool_decide_true by eauto. by rewrite !M_ret_bind.
    + rewrite bool_decide_false by by intros []. by rewrite !M_ret_bind.
  - rewrite bool_decide_false by by intros []. by rewrite !M_ret_bind.
Qed.

(** The loader for datasets of the hub, on records: every kept entry is
    cut down to its two fields, and every record that lacks one of the
    keys is dropped with one diagnostic. *)
Theorem load_reference_hf_spec (py_str : json → string)
    (q_key a_key : string) (dataset : list (gmap string json)) :
  load_reference_hf py_str q_key a_key (JObj <$> dataset)
  = ((λ m, "Entry missing keys " +:+ q_key +:+ " or " +:+ a_key +:+ ": "
           +:+ py_str (JObj m))
     <$> filter (λ m, ¬ (is_Some (m !! q_key) ∧ is_Some (m !! a_key))) dataset,
     Return (omap (λ m, match m !! q_key, m !! a_key with
                        | Some vq, Some va =>
                            Some (JObj (<[a_key := va]> {[q_key := vq]}))
                        | _, _ => None
                        end) dataset)).
Proof.
  unfold load_reference_hf.
  change (omap ?g dataset) with ([] ++ omap g dataset).
  generalize (@nil json) as acc.
  induction dataset as [|m dataset IH]; intros acc.
  { cbn. by rewrite app_nil_r. }
  cbn [fmap list_fmap for_each omap list_omap]. rewrite load_hf_entry_record.
  rewrite filter_cons.
  destruct (m !! q_key) as [vq|], (m !! a_key) as [va|].
  - rewrite decide_False by (intros H; apply H; eauto).
    rewrite M_ret_bind. unfold fmap in IH. rewrite IH.
    by rewrite <- app_assoc.
  - rewrite decide_True by (intros [_ []%is_Some_None]).
    rewrite M_bind_pair. unfold fmap in IH. by rewrite IH.
  - rewrite decide_True by (intros [[]%is_Some_None _]).
    rewrite M_bind_pair. unfold fmap in IH. by rewrite IH.
  - rewrite decide_True by (intros [[]%is_Some_None _]).
    rewrite M_bind_pair. unfold fmap in IH. by rewrite IH.
Qed.

(** When every input file can be read, the stream of candidates yields
    exactly the lines that hold something other than whitespace, each with
    the name of its file, file after file and line after line. *)
Theorem get_all_lines_yields (fs : gmap string (list string))
    (input_files : list string) :
  Forall (λ input_file, is_Some (fs !! input_file)) input_files →
  ∃ yielded,
    get_all_lines fs input_files = ([], Return yielded)
    ∧ yielded
      = (input_file ← input_files;
         (λ line, (line, input_file))
         <$> filter (λ line, Text.strip line ≠ ""%string)
               (default [] (fs !! input_file)))
    ∧ ∀ line input_file,
        (line, input_file) ∈ yielded
        ↔ input_file ∈ input_files
          ∧ (∃ f, fs !! input_file = Some f ∧ line ∈ f)
          ∧ Text.strip line ≠ ""%string.
Proof.
  intros Hfiles. eexists. split_and!; [|reflexivity|].
  - by apply get_all_lines_readable.
  - intros line input_file. rewrite list_elem_of_bind. split.
    + intros (file & Hin & Hfile).
      apply list_elem_of_fmap in Hin as (line' & [= -> ->] & Hline).
      apply list_elem_of_filter in Hline as [Hne Hline].
      rewrite Forall_forall in Hfiles.
      destruct (Hfiles _ Hfile) as [f Hf]. rewrite Hf in Hline. eauto 10.
    + intros (Hfile & (f & Hf & Hline) & Hne). exists input_file.
      split; [|done]. apply list_elem_of_fmap. exists line. split; [done|].
      apply list_elem_of_filter. by rewrite Hf.
Qed.

Lemma filter_all {A} (P : A → Prop) `{∀ x, Decision (P x)} (l : list A) :
  Forall P l → filter P l = l.
Proof.
  induction 1 as [|x l Hx _ IH]; [done|].
  by rewrite filter_cons_True, IH by done.
Qed.

Lemma total_lines_readable (fs : gmap string (list string))
    (input_files : list string) (total : nat) :
  Forall (λ input_file, is_Some (fs !! input_file)) input_files →
  for_each
    (λ total f,
       match fs !! f with
       | Some lines => mret (total + length lines)
       | None => raise OSError
       end)
    input_files total
  = mret (total + sum_list ((λ f, length (default [] (fs !! f)))
                            <$> input_files)).
Proof.
  intros Hfiles. revert total.
  induction Hfiles as [|input_file rest [f Hf] _ IH]; intros total.
  { cbn. by rewrite Nat.add_0_r. }
  cbn [for_each fmap list_fmap sum_list]. rewrite Hf, M_ret_bind.
  unfold fmap in IH. rewrite IH. cbn [default]. by rewrite Nat.add_assoc.
Qed.

(** The total announced before the run counts every line of every input
    file, blank ones included: it is at least the number of candidates the
    stream yields, and equal to it when no line is blank. *)
Theorem total_lines_bounds_candidates (fs : gmap string (list string))
    (input_files : list string) :
  Forall (λ input_file, is_Some (fs !! input_file)) input_files →
  ∃ total yielded,
    total_lines fs input_files = ([], Return total)
    ∧ get_all_lines fs input_files = ([], Return yielded)
    ∧ total = sum_list ((λ f, length (default [] (fs !! f))) <$> input_files)
    ∧ length yielded ≤ total
    ∧ (Forall (λ input_file,
                 Forall (λ line, Text.strip line ≠ ""%string)
                   (default [] (fs !! input_file))) input_files →
       length yielded = total).
Proof.
  intros Hfiles. eexists _, _.
  split_and!; [by apply (total_lines_readable fs input_files 0)
              |by apply get_all_lines_readable|done|..].
  - clear Hfiles. induction input_files as [|f rest IH]; [done|].
    cbn [mbind list_bind fmap list_fmap sum_list] in *.
    rewrite length_app, length_fmap.
    pose proof (length_filter (λ line, Text.strip line ≠ ""%string)
                  (default [] (fs !! f))) as H.
    cbn [Nat.add] in *. apply Nat.add_le_mono; [exact H|exact IH].
  - clear Hfiles. induction 1 as [|f rest Hf _ IH]; [done|].
    cbn [mbind list_bind fmap list_fmap sum_list] in *.
    rewrite length_app, length_fmap, IH.
    by rewrite filter_all by done.
Qed.

(** When one of the input files cannot be opened, counting the lines
    raises [OSError], before any candidate is read. *)
Theorem total_lines_missing_file (fs : gmap string (list string))
    (input_files : list string) :
  Exists (λ input_file, fs !! input_file = None) input_files →
  total_lines fs input_files = ([], Raise OSError).
Proof.
  unfold total_lines. generalize 0 as total.
  induction input_files as [|f rest IH]; intros total Hmiss.
  { by apply Exists_nil in Hmiss. }
  cbn [for_each]. destruct (fs !! f) as [lines|] eqn:Hf; [|done].
  rewrite M_ret_bind. apply IH.
  apply Exists_cons in Hmiss as [Hmiss|Hmiss]; [congruence|done].
Qed.

(** ** The list of input files *)

Lemma split_sep_scan_pieces (sep : ascii) (l : list ascii) :
  ∀ cur piece,
    Forall (λ c, c ≠ sep) cur →
    piece ∈ split_sep_scan sep cur l → Forall (λ c, c ≠ sep) piece.
Proof.
  induction l as [|c l IH]; intros cur piece Hcur; cbn [split_sep_scan].
  - intros ->%list_elem_of_singleton. by apply Forall_rev.
  - case_bool_decide as Hc.
    + intros [->|Hin]%elem_of_cons; [by apply Forall_rev|].
      by apply (IH []).
    + apply IH. by constructor.
Qed.

Lemma split_sep_scan_word (sep : ascii) (w cur l : list ascii) :
  Forall (λ c, c ≠ sep) w →
  split_sep_scan sep cur (w ++ l) = split_sep_scan sep (rev w ++ cur) l.
Proof.
  intros Hw. revert cur. induction Hw as [|c w Hc _ IH]; intros cur; [done|].
  cbn [app split_sep_scan]. rewrite bool_decide_false by done.
  rewrite IH. cbn [rev]. by rewrite <- app_assoc.
Qed.

Lemma split_sep_scan_join (names : list string) :
  names ≠ [] →
  Forall (λ name, Forall (λ c, c ≠ ","%char) (Text.chars name)) names →
  split_sep_scan "," [] (Text.chars (join_comma names)) = Text.chars <$> names.
Proof.
  intros Hne Hnames. induction Hnames as [|name rest Hname Hrest IH]; [done|].
  destruct rest as [|name' rest].
  - cbn [join_comma fmap list_fmap].
    rewrite <- (app_nil_r (Text.chars name)) at 1.
    rewrite split_sep_scan_word by done.
    cbn [split_sep_scan]. by rewrite app_nil_r, rev_involutive.
  - change (join_comma (name :: name' :: rest))
      with (name +:+ "," +:+ join_comma (name' :: rest)).
    rewrite chars_app. change (Text.chars ("," +:+ ?s))
      with (","%char :: Text.chars s).
    rewrite split_sep_scan_word by done. cbn [split_sep_scan].
    rewrite bool_decide_true by done. rewrite IH by done.
    cbn. by rewrite app_nil_r, rev_involutive.
Qed.

Lemma strip_trimmed (name : string) :
  trimmed (Text.chars name) → Text.strip name = name.
Proof.
  intros Hname. unfold Text.strip.
  rewrite <- (text_chars name) at 2. f_equal.
  pose proof (strip_chars_unique [] (Text.chars name) [] (Forall_nil_2 _)
                (Forall_nil_2 _) Hname) as H.
  by rewrite app_nil_r in H.
Qed.

(** Every name of the list of input files is not empty, has no whitespace
    at either end and holds no comma. *)
Theorem input_files_names (input_jsonls name : string) :
  name ∈ input_files input_jsonls →
  name ≠ ""%string
  ∧ trimmed (Text.chars name)
  ∧ Forall (λ c, c ≠ ","%char) (Text.chars name).
Proof.
  unfold input_files, split_sep.
  intros (f & -> & [Hne Hf]%list_elem_of_filter)%list_elem_of_fmap.
  apply list_elem_of_fmap in Hf as (piece & -> & Hpiece).
  apply (split_sep_scan_pieces _ _ []) in Hpiece; [|constructor].
  split; [done|]. unfold Text.strip in *. rewrite !chars_text in *.
  destruct (strip_chars_split piece) as (ws1 & ws2 & Hsplit & _ & _ & Htrim).
  split; [done|]. rewrite Hsplit in Hpiece.
  by apply Forall_app in Hpiece as [_ [? _]%Forall_app].
Qed.

(** Names that are not empty, have no whitespace at either end and hold no
    comma are read back from their comma-separated list, in order. *)
Theorem input_files_join (names : list string) :
  Forall (λ name, name ≠ ""%string
                  ∧ trimmed (Text.chars name)
                  ∧ Forall (λ c, c ≠ ","%char) (Text.chars name)) names →
  input_files (join_comma names) = names.
Proof.
  intros Hnames. destruct names as [|name rest]; [done|].
  unfold input_files, split_sep. rewrite split_sep_scan_join; [|done|].
  - assert (∀ l : list string, Text.text <$> (Text.chars <$> l) = l) as ->.
    { induction l as [|n l IH]; [done|]. cbn. by rewrite text_chars, IH. }
    rewrite filter_all.
    + induction Hnames as [|n l (_ & Hn & _) _ IH]; [done|].
      cbn. by rewrite strip_trimmed, IH.
    + eapply Forall_impl; [done|].
      intros n (Hne & Hn & _). cbn. by rewrite strip_trimmed.
  - eapply Forall_impl; [done|]. by intros n (_ & _ & ?).
Qed.

(** ** Delivery orders of the pool *)

Section PoolOrders.

Context {T R : Type}.
Variable worker_func : T → R.

Lemma pool_single_inv (tasks : list T) (st : pool_state) :
  rtc (pool_step worker_func 1) (pool_init tasks) st →
  length (running st) ≤ 1
  ∧ arrived st ++ (worker_func <$> running st) ++ (worker_func <$> pending st)
    = worker_func <$> tasks.
Proof.
  revert st. apply rtc_ind_r; [cbn; split; [lia|done]|].
  intros st st' _ Hstep [Hlen Hinv]. destruct Hstep as [t q run arr Hfree|]; cbn in *.
  - destruct run; [|cbn in Hfree; lia]. cbn in *. done.
  - destruct run1 as [|? [|? ?]], run2; cbn in *; try lia.
    split; [lia|]. by rewrite <- Hinv, <- app_assoc.
Qed.

(** With one worker the results are delivered in the order of the tasks. *)
Theorem imap_unordered_single_worker (tasks : list T) (rs : list R) :
  imap_unordered worker_func 1 tasks rs → rs = worker_func <$> tasks.
Proof.
  intros ([q run arr] & Hrun & [Hq Hr] & Harr). cbn in *. subst.
  apply pool_single_inv in Hrun as [_ Hinv]. cbn in Hinv.
  by rewrite app_nil_r in Hinv.
Qed.

Lemma pool_dispatch_all (processes : nat) (q run : list T) (arr : list R) :
  length run + length q ≤ processes →
  rtc (pool_step worker_func processes) (PoolState q run arr)
      (PoolState [] (run ++ q) arr).
Proof.
  revert run. induction q as [|t q IH]; intros run Hlen.
  { by rewrite app_nil_r. }
  eapply rtc_l; [apply step_dispatch; cbn in Hlen; lia|].
  specialize (IH (run ++ [t])). rewrite <- app_assoc in IH. apply IH.
  rewrite length_app. cbn in *. lia.
Qed.

Lemma pool_complete_in_order (processes : nat) (order : list T) :
  ∀ (run : list T) (arr : list R),
    run ≡ₚ order →
    rtc (pool_step worker_func processes) (PoolState [] run arr)
        (PoolState [] [] (arr ++ (worker_func <$> order))).
Proof.
  induction order as [|t order IH]; intros run arr Hperm.
  { apply Permutation_nil_r in Hperm as ->. cbn. by rewrite app_nil_r. }
  assert (t ∈ run) as (run1 & run2 & ->)%list_elem_of_split.
  { rewrite Hperm. apply list_elem_of_here. }
  eapply rtc_l; [apply step_complete|].
  cbn [fmap list_fmap].
  replace (arr ++ worker_func t :: (worker_func <$> order))
    with ((arr ++ [worker_func t]) ++ (worker_func <$> order))
    by by rewrite <- app_assoc.
  apply IH. symmetry. by apply Permutation_cons_app_inv with t.
Qed.

(** With as many workers as tasks every order of the results can be the
    order of delivery. *)
Theorem imap_unordered_any_order (processes : nat) (tasks order : list T) :
  length tasks ≤ processes →
  order ≡ₚ tasks →
  imap_unordered worker_func processes tasks (worker_func <$> order).
Proof.
  intros Hlen Hperm. exists (PoolState [] [] (worker_func <$> order)).
  split_and!; [|done|done].
  etrans; [apply (pool_dispatch_all processes tasks [] []); by cbn|].
  by apply (pool_complete_in_order processes order tasks []).
Qed.

End PoolOrders.

(** ** Aggregation *)

Lemma extend_return (acc r : list match_record) (d : list string) :
  extend acc (d, Return r) = (d, Return (acc ++ r)).
Proof.
  unfold extend, mbind, M_bind, mret, M_ret. cbn. by rewrite app_nil_r.
Qed.

Lemma collect_from_returned (rs : list (M (list match_record)))
    (acc : list match_record) :
  Forall (λ res, ¬ raises res) rs →
  for_each extend rs acc
  = (mjoin (printed <$> rs), Return (acc ++ mjoin (returned <$> rs))).
Proof.
  intros Hrs. revert acc. induction Hrs as [|res rest Hres _ IH]; intros acc.
  { cbn. by rewrite app_nil_r. }
  cbn [for_each fmap list_fmap mjoin list_join].
  destruct res as [d [r|e]]; [|destruct Hres; by exists e].
  rewrite extend_return, M_bind_pair.
  unfold fmap in IH. rewrite IH. cbn. by rewrite app_assoc.
Qed.


(** The first delivered exception ends the aggregation: it is raised again,
    the records gathered so far are not returned, and the results delivered
    after it are not looked at. *)
Theorem collect_first_exception (rs1 rs2 : list (M (list match_record)))
    (diagnostics : list string) (e : exn) :
  Forall (λ res, ¬ raises res) rs1 →
  collect (rs1 ++ (diagnostics, Raise e) :: rs2)
  = (mjoin (printed <$> rs1) ++ diagnostics, Raise e).
Proof.
  intros Hrs1. unfold collect.
  by rewrite for_each_app, collect_from_returned.
Qed.

(** ** The report of a run *)

Lemma scan_records_inv (json_loads : string → option json)
    (reference_data : list json) (line q_key a_key : string)
    (threshold : Qc) (input_entry : json) (input_q input_a : string) :
  json_loads (Text.strip line) = Some input_entry →
  ∀ refs acc recs,
    refs ⊆ reference_data →
    length acc + length refs ≤ length reference_data →
    Forall (λ r, score_ok threshold r ∧ rec_ref r ∈ reference_data
                 ∧ json_loads (Text.strip line) = Some (rec_input r)) acc →
    scan q_key a_key threshold input_entry input_q input_a refs acc
    = Return recs →
    Forall (λ r, score_ok threshold r ∧ rec_ref r ∈ reference_data
                 ∧ json_loads (Text.strip line) = Some (rec_input r)) recs
    ∧ length recs ≤ length reference_data.
Proof.
  intros Hload. induction refs as [|ref_entry rest IH];
    intros acc recs Hsub Hlen Hacc.
  { intros [= <-]. cbn in Hlen. split; [done|lia]. }
  cbn [scan].
  destruct (ref_strings q_key a_key ref_entry) as [[rq ra]|e]; [|done].
  apply IH; [set_solver| |].
  - rewrite length_app. unfold verdict_records.
    destruct (verdict _ _ _ _ _) as [[]|]; cbn in *; lia.
  - apply Forall_app. split; [done|]. unfold verdict_records.
    destruct (verdict _ _ _ _ _) as [[kind score]|] eqn:E; [|done].
    apply Forall_singleton. split_and!; [|set_solver|done].
    apply verdict_score in E. unfold score_ok. cbn. naive_solver.
Qed.

Lemma check_entry_records_inv (json_loads : string → option json)
    (reference_data : list json) (line file q_key a_key : string)
    (threshold : Qc) (diagnostics : list string)
    (records : list match_record) :
  check_entry json_loads reference_data (line, file) q_key a_key threshold
  = (diagnostics, Return records) →
  Forall (λ r, score_ok threshold r ∧ rec_ref r ∈ reference_data
               ∧ json_loads (Text.strip line) = Some (rec_input r)) records
  ∧ length records ≤ length reference_data.
Proof.
  destruct (json_loads (Text.strip line)) as [input_entry|] eqn:Hload.
  - rewrite check_entry_view with (input_entry := input_entry) by done.
    destruct (cand_strings input_entry) as [[input_q input_a]|e]; [|done].
    intros [= _ Hscan]. rewrite <- Hload.
    by eapply (scan_records_inv json_loads reference_data line) in Hscan.
  - rewrite check_entry_invalid by done. intros [= _ <-]. split; [done|].
    cbn. lia.
Qed.

Lemma length_join_bound {A} (k : nat) (ls : list (list A)) :
  Forall (λ l, length l ≤ k) ls → length (mjoin ls) ≤ length ls * k.
Proof.
  induction 1 as [|l ls Hl _ IH]; [done|].
  change (mjoin (l :: ls)) with (l ++ mjoin ls). rewrite length_app.
  change (length (l :: ls)) with (S (length ls)). nia.
Qed.

(** Whatever the size of the pool and the order of delivery, a report that
    is returned holds only records whose score respects the bound of their
    kind, that refer to an entry of the reference collection and that embed
    the value decoded from a candidate line of the run; it has at most one
    record per candidate line and reference entry. *)
Theorem pool_run_report_invariant (json_loads : string → option json)
    (processes : nat) (reference_data : list json) (q_key a_key : string)
    (threshold : Qc) (tasks : list (string * string))
    (out : M (list match_record)) (report : list match_record) :
  pool_run json_loads processes reference_data q_key a_key threshold tasks
    out →
  result out = Return report →
  Forall (λ r, score_ok threshold r
               ∧ rec_ref r ∈ reference_data
               ∧ ∃ line file, (line, file) ∈ tasks
                   ∧ json_loads (Text.strip line) = Some (rec_input r))
    report
  ∧ length report ≤ length tasks * length reference_data.
Proof.
  intros (rs & Hrs & ->) Hout. apply imap_unordered_perm in Hrs.
  destruct (raises_or_not rs) as [Hok|Hbad].
  2:{ destruct (collect_raises rs [] Hbad) as [e He].
      unfold collect in Hout. congruence. }
  unfold collect in Hout. rewrite collect_from_returned in Hout by done.
  injection Hout as <-. cbn [app].
  assert (Forall (λ res, ∃ line file, (line, file) ∈ tasks
                    ∧ res = check_entry json_loads reference_data (line, file)
                              q_key a_key threshold) rs) as Horigin.
  { rewrite Hrs. apply Forall_fmap, Forall_forall. intros [line file] Hin.
    cbn. eauto. }
  split.
  - apply Forall_forall. intros r Hr.
    apply list_elem_of_join in Hr as (l & Hr & Hl).
    apply list_elem_of_fmap in Hl as (res & -> & Hres).
    rewrite Forall_forall in Horigin.
    destruct (Horigin res Hres) as (line & file & Hin & ->).
    unfold returned in Hr.
    destruct (check_entry json_loads reference_data (line, file) q_key a_key
                threshold) as [d [recs|e]] eqn:E;
      [|by apply elem_of_nil in Hr].
    apply check_entry_records_inv in E as [E _].
    rewrite Forall_forall in E. destruct (E r Hr) as (? & ? & ?). eauto 10.
  - assert (length tasks = length rs) as ->.
    { by rewrite Hrs, length_fmap. }
    rewrite <- (length_fmap returned rs). apply length_join_bound.
    apply Forall_fmap. eapply Forall_impl; [exact Horigin|].
    intros res (line & file & _ & ->). unfold returned.
    destruct (check_entry json_loads reference_data (line, file) q_key a_key
                threshold) as [d [recs|e]] eqn:E; [|cbn; lia].
    by apply check_entry_records_inv in E as [_ E].
Qed.

(** ** Examples of the properties above *)


Lemma tokenize_whitespace_union_witness :
  tokenize ("a" +:+ String " " "b") = tokenize "a" ∪ tokenize "b".
Proof. apply (tokenize_whitespace_union "a" "b" " "); reflexivity. Defined.

Lemma tokenize_token_shape_witness :
  "22"%string ≠ ""%string
  ∧ Forall (λ c, Text.isword c = true ∧ Text.lower_char c = c)
      (Text.chars "22").
Proof.
  apply (tokenize_token_shape "What is 2+2?" "22").
  vm_compute. reflexivity.
Defined.

Lemma check_entry_exact_match_witness :
  ∃ records,
    check_entry Sample.loads Sample.refs
      (Sample.nl (Sample.line_qa "What is 2+2?" "five"), "in.jsonl"%string)
      "question" "answer" Sample.threshold
    = ([], Return records)
    ∧ (Sample.obj_qa "What is 2+2?" "4",
       JObj (<["answer"%string := JStr "five"]>
               {["question"%string := JStr "What is 2+2?"]}),
       exact_match, 1%Qc) ∈ records.
Proof.
  apply (check_entry_exact_match Sample.loads Sample.refs
           (Sample.nl (Sample.line_qa "What is 2+2?" "five")) "in.jsonl"
           "question" "answer" Sample.threshold
           (<["answer"%string := JStr "five"]>
              {["question"%string := JStr "What is 2+2?"]})
           "What is 2+2?" "five"
           (Sample.obj_qa "What is 2+2?" "4") "What is 2+2?" "4").
  - reflexivity.
  - reflexivity.
  - reflexivity.
  - repeat constructor; eexists; reflexivity.
  - apply list_elem_of_here.
  - reflexivity.
  - reflexivity.
  - left. reflexivity.
Defined.




Lemma check_entry_threshold_nonpositive_witness :
  ∃ records,
    check_entry Sample.loads Sample.refs
      (Sample.nl (Sample.line_qa "totally unrelated" "42"), "in.jsonl"%string)
      "question" "answer" 0%Qc
    = ([], Return records)
    ∧ rec_ref <$> records = Sample.refs.
Proof.
  apply (check_entry_threshold_nonpositive Sample.loads Sample.refs
           (Sample.nl (Sample.line_qa "totally unrelated" "42")) "in.jsonl"
           "question" "answer" 0%Qc
           (<["answer"%string := JStr "42"]>
              {["question"%string := JStr "totally unrelated"]})
           "totally unrelated" "42").
  - reflexivity.
  - reflexivity.
  - reflexivity.
  - repeat constructor; eexists; reflexivity.
  - vm_compute. intros H. discriminate H.
Defined.

Lemma check_entry_threshold_above_one_witness :
  Forall (λ r, rec_kind r = exact_match ∧ rec_score r = 1%Qc)
    [(Sample.obj_qa "What is 2+2?" "4",
      Sample.obj_qa "What is 2+2?" "five", exact_match, 1%Qc)].
Proof.
  apply (check_entry_threshold_above_one Sample.loads Sample.refs
           (Sample.nl (Sample.line_qa "What is 2+2?" "five"),
            "in.jsonl"%string)
           "question" "answer" (Q2Qc 2) []).
  - vm_compute. reflexivity.
  - vm_compute. reflexivity.
Defined.

Lemma check_entry_threshold_monotone_witness :
  ∃ records1 records2,
    check_entry Sample.loads [Sample.obj_qa "a b c d" "x"]
      (Sample.nl (Sample.line_qa "a b c e" "y"), "in.jsonl"%string)
      "question" "answer" (Q2Qc (1 # 2))
    = ([], Return records1)
    ∧ check_entry Sample.loads [Sample.obj_qa "a b c d" "x"]
        (Sample.nl (Sample.line_qa "a b c e" "y"), "in.jsonl"%string)
        "question" "answer" (Q2Qc (4 # 5))
      = ([], Return records2)
    ∧ rec_ref <$> records2 `sublist_of` rec_ref <$> records1.
Proof.
  apply (check_entry_threshold_monotone Sample.loads
           [Sample.obj_qa "a b c d" "x"]
           (Sample.nl (Sample.line_qa "a b c e" "y")) "in.jsonl"
           "question" "answer" (Q2Qc (1 # 2)) (Q2Qc (4 # 5))
           (<["answer"%string := JStr "y"]>
              {["question"%string := JStr "a b c e"]})
           "a b c e" "y").
  - reflexivity.
  - reflexivity.
  - reflexivity.
  - repeat constructor; eexists; reflexivity.
  - vm_compute. intros H. discriminate H.
Defined.

Lemma check_entry_no_word_character_witness :
  ∃ records kind,
    check_entry Inputs.loads [Sample.obj_qa "..." "no"]
      (Sample.nl (Sample.line_qa "?!" "yes"), "in.jsonl"%string)
      "question" "answer" Sample.threshold
    = ([], Return records)
    ∧ (Sample.obj_qa "..." "no",
       JObj (<["answer"%string := JStr "yes"]>
               {["question"%string := JStr "?!"]}), kind, 1%Qc) ∈ records
    ∧ (kind = exact_match ∨ kind = jaccard_question).
Proof.
  apply (check_entry_no_word_character Inputs.loads
           [Sample.obj_qa "..." "no"]
           (Sample.nl (Sample.line_qa "?!" "yes")) "in.jsonl"
           "question" "answer" Sample.threshold
           (<["answer"%string := JStr "yes"]>
              {["question"%string := JStr "?!"]})
           "?!" "yes" (Sample.obj_qa "..." "no") "..." "no").
  - reflexivity.
  - reflexivity.
  - reflexivity.
  - repeat constructor; eexists; reflexivity.
  - apply list_elem_of_here.
  - reflexivity.
  - reflexivity.
  - repeat constructor.
  - repeat constructor.
  - vm_compute. intros H. discriminate H.
Defined.

Lemma check_entry_records_origin_witness :
  Forall (λ r, rec_ref r ∈ Sample.refs
               ∧ Sample.loads
                   (Text.strip
                      (Sample.nl (Sample.line_qa "What is 2+2?" "five")))
                 = Some (rec_input r))
    [(Sample.obj_qa "What is 2+2?" "4",
      Sample.obj_qa "What is 2+2?" "five", exact_match, 1%Qc)].
Proof.
  apply (check_entry_records_origin Sample.loads Sample.refs
           (Sample.nl (Sample.line_qa "What is 2+2?" "five")) "in.jsonl"
           "question" "answer" Sample.threshold []).
  vm_compute. reflexivity.
Defined.

Lemma load_reference_jsonl_spec_witness :
  ∃ reference_data,
    load_reference_jsonl Sample.loads "question" "answer"
      Inputs.reference_file
    = ((λ line, "Invalid JSON in reference JSONL: " +:+ line)
       <$> filter (λ line, Sample.loads (Text.strip line) = None)
             Inputs.reference_file,
       Return reference_data)
    ∧ reference_data
      = omap (λ line, match Sample.loads (Text.strip line) with
                      | Some (JObj m) =>
                          if bool_decide (is_Some (m !! "question"%string))
                             && bool_decide (is_Some (m !! "answer"%string))
                          then Some (JObj m) else None
                      | _ => None
                      end) Inputs.reference_file
    ∧ Forall (λ entry, ∃ m, entry = JObj m
                            ∧ is_Some (m !! "question"%string)
                            ∧ is_Some (m !! "answer"%string)) reference_data.
Proof.
  apply (load_reference_jsonl_spec Sample.loads "question" "answer"
           Inputs.reference_file).
  repeat constructor.
Defined.

Lemma load_reference_jsonl_scalar_line_witness :
  result (load_reference_jsonl Sample.loads "question" "answer"
            ([Sample.nl (Sample.line_qa "What is 2+2?" "4")]
             ++ Sample.nl "7"
             :: [Sample.nl (Sample.line_qa "What is 2+2?" "five")]))
  = Raise TypeError.
Proof.
  apply (load_reference_jsonl_scalar_line Sample.loads "question" "answer"
           [Sample.nl (Sample.line_qa "What is 2+2?" "4")]
           [Sample.nl (Sample.line_qa "What is 2+2?" "five")]
           (Sample.nl "7") (JInt 7)).
  - repeat constructor.
  - reflexivity.
  - reflexivity.
Defined.

Lemma get_all_lines_yields_witness :
  ∃ yielded,
    get_all_lines Inputs.fs ["a.jsonl"; "b.jsonl"]%string = ([], Return yielded)
    ∧ yielded
      = (input_file ← ["a.jsonl"; "b.jsonl"]%string;
         (λ line, (line, input_file))
         <$> filter (λ line, Text.strip line ≠ ""%string)
               (default [] (Inputs.fs !! input_file)))
    ∧ ∀ line input_file,
        (line, input_file) ∈ yielded
        ↔ input_file ∈ ["a.jsonl"; "b.jsonl"]%string
          ∧ (∃ f, Inputs.fs !! input_file = Some f ∧ line ∈ f)
          ∧ Text.strip line ≠ ""%string.
Proof.
  apply (get_all_lines_yields Inputs.fs ["a.jsonl"; "b.jsonl"]%string).
  repeat constructor; eexists; reflexivity.
Defined.

Lemma total_lines_bounds_candidates_witness :
  ∃ total yielded,
    total_lines Inputs.fs ["a.jsonl"; "b.jsonl"]%string = ([], Return total)
    ∧ get_all_lines Inputs.fs ["a.jsonl"; "b.jsonl"]%string
      = ([], Return yielded)
    ∧ total
      = sum_list ((λ f, length (default [] (Inputs.fs !! f)))
                  <$> ["a.jsonl"; "b.jsonl"]%string)
    ∧ length yielded ≤ total
    ∧ (Forall (λ input_file,
                 Forall (λ line, Text.strip line ≠ ""%string)
                   (default [] (Inputs.fs !! input_file)))
         ["a.jsonl"; "b.jsonl"]%string →
       length yielded = total).
Proof.
  apply (total_lines_bounds_candidates Inputs.fs
           ["a.jsonl"; "b.jsonl"]%string).
  repeat constructor; eexists; reflexivity.
Defined.

Lemma total_lines_missing_file_witness :
  total_lines Inputs.fs ["a.jsonl"; "c.jsonl"]%string = ([], Raise OSError).
Proof.
  apply (total_lines_missing_file Inputs.fs ["a.jsonl"; "c.jsonl"]%string).
  apply Exists_cons_tl, Exists_cons_hd. reflexivity.
Defined.

Lemma input_files_names_witness :
  "b.jsonl"%string ≠ ""%string
  ∧ trimmed (Text.chars "b.jsonl")
  ∧ Forall (λ c, c ≠ ","%char) (Text.chars "b.jsonl").
Proof.
  apply (input_files_names " a.jsonl, b.jsonl ,," "b.jsonl").
  apply list_elem_of_further, list_elem_of_here.
Defined.

Lemma input_files_join_witness :
  input_files (join_comma ["a.jsonl"; "b.jsonl"]%string)
  = ["a.jsonl"; "b.jsonl"]%string.
Proof.
  apply (input_files_join ["a.jsonl"; "b.jsonl"]%string).
  repeat apply Forall_cons_2; [| |apply Forall_nil_2].
  - split_and!; [discriminate| |repeat constructor; discriminate].
    right. split.
    + exists "a"%char, (Text.chars ".jsonl"). split; reflexivity.
    + exists (Text.chars "a.json"), "l"%char. split; reflexivity.
  - split_and!; [discriminate| |repeat constructor; discriminate].
    right. split.
    + exists "b"%char, (Text.chars ".jsonl"). split; reflexivity.
    + exists (Text.chars "b.json"), "l"%char. split; reflexivity.
Defined.

Lemma imap_unordered_single_worker_witness :
  imap_unordered S 1 [1; 2; 3] [2; 3; 4] ∧ [2; 3; 4] = S <$> [1; 2; 3].
Proof.
  assert (imap_unordered S 1 [1; 2; 3] [2; 3; 4]) as Hrun.
  { apply (imap_unordered_total S 1 [1; 2; 3]). lia. }
  split; [exact Hrun|].
  exact (imap_unordered_single_worker S [1; 2; 3] [2; 3; 4] Hrun).
Defined.

Lemma imap_unordered_any_order_witness :
  imap_unordered S 2 [1; 2] (S <$> [2; 1]).
Proof.
  apply (imap_unordered_any_order S 2 [1; 2] [2; 1]).
  - cbn. lia.
  - apply perm_swap.
Defined.


Lemma collect_first_exception_witness :
  collect ([Sample.worker (Sample.nl "not json")]
           ++ ([], Raise AttributeError)
           :: [Sample.worker
                 (Sample.nl (Sample.line_qa "What is 2+2?" "five"))])
  = (mjoin (printed <$> [Sample.worker (Sample.nl "not json")]) ++ [],
     Raise AttributeError).
Proof.
  apply (collect_first_exception
           [Sample.worker (Sample.nl "not json")]
           [Sample.worker (Sample.nl (Sample.line_qa "What is 2+2?" "five"))]
           [] AttributeError).
  apply Forall_cons_2; [|apply Forall_nil_2].
  intros [e He]; vm_compute in He; discriminate He.
Defined.

Lemma pool_run_report_invariant_witness :
  ∃ report,
    result (collect
              ((λ line_file,
                  check_entry Sample.loads Sample.refs line_file
                    "question" "answer" Sample.threshold)
               <$> Sample.tasks))
    = Return report
    ∧ Forall (λ r, score_ok Sample.threshold r
                   ∧ rec_ref r ∈ Sample.refs
                   ∧ ∃ line file, (line, file) ∈ Sample.tasks
                       ∧ Sample.loads (Text.strip line)
                         = Some (rec_input r))
        report
    ∧ length report ≤ length Sample.tasks * length Sample.refs.
Proof.
  eexists. split; [vm_compute; reflexivity|].
  apply (pool_run_report_invariant Sample.loads 2 Sample.refs
           "question" "answer" Sample.threshold Sample.tasks
           (collect
              ((λ line_file,
                  check_entry Sample.loads Sample.refs line_file
                    "question" "answer" Sample.threshold)
               <$> Sample.tasks))).
  - eexists. split; [|reflexivity]. apply imap_unordered_total. lia.
  - vm_compute. reflexivity.
Defined.
